(** * switcherlabs-go: the flag evaluation engine

    A shallow embedding of [switcherlabs.go]: the client state (the flag
    snapshot, the global overrides, the identity cache and the time of the
    last refresh), the two cache layers [refreshState] and [fetchIdentity],
    and the three typed entry points [BoolFlag], [NumberFlag] and
    [StringFlag] with their recursion through dynamic rules.

    Conventions.
    - A Go [map] is a [gmap]; reading a missing key gives [None] where Go
      gives the zero value and [ok = false].
    - A [time.Time] is a number of nanoseconds ([Z]); [Add] is addition,
      [Before] and [After] are the strict orders.
    - A [float64] is a primitive binary64 float, compared with the IEEE
      comparisons Go uses.
    - [interface{}] values decoded from JSON are the sum type [value]; a
      type assertion [v.(T)] on another dynamic type is a run-time panic.
    - A pointer decoded from JSON is an [option]: [null] decodes to the
      nil pointer, [None], and reading a field through it is a run-time
      panic.
    - The HTTP layer ([call], [newRequest], [do]) and the wall clock are
      the outside world: an environment answers each interaction, indexed
      by the number of interactions made so far, so that answers may change
      over time in any way.
    - The mutex only serialises accesses; the model is sequential. *)

From Stdlib Require Import ZArith String PrimFloat.
From stdpp Require Import base option list gmap strings.

Local Open Scope string_scope.
Local Open Scope list_scope.
Local Open Scope Z_scope.

(** ** Values and records *)

(** What [encoding/json] stores in an [interface{}]. The engine never looks
    inside an array or an object, so no induction principle is needed. *)
#[local] Unset Elimination Schemes.
Inductive value : Type :=
  | VNull
  | VBool (b : bool)
  | VNumber (n : float)
  | VString (s : string)
  | VArray (l : list value)
  | VObject (l : list (string * value)).
#[local] Set Elimination Schemes.

Record expression := {
  expr_FlagID : string;
  expr_Op : string;
  expr_Value : value
}.

Record dynamicRule := {
  rule_Expression : expression;
  rule_Value : value
}.

Record flag := {
  flag_ID : string;
  flag_Key : string;
  flag_Type : string;
  flag_Value : value;
  flag_DynamicRules : list dynamicRule
}.

Record override := {
  override_ID : string;
  override_Key : string;
  override_Value : value
}.

Record identity := {
  identity_ID : string;
  identity_Identifier : string;
  identity_Overrides : gmap string value;
  fetchedAt : Z
}.

Record FlagOptions := {
  Key : string;
  Identifier : string
}.

(** The decoded body of [GET /sdk/initialize]. The arrays are [[]*flag]
    and [[]*override]: an element that is [null] in the body decodes to a
    nil pointer, [None] here. *)
Record response := {
  resp_Flags : list (option flag);
  resp_Overrides : list (option override)
}.

(** ** Constants *)

Definition second : Z := 1000000000.
Definition stateRefreshRate : Z := 60 * second.
Definition identityRefreshRate : Z := 5 * second.

Definition typeBoolean : string := "boolean".
Definition typeNumber : string := "number".
Definition typeString : string := "string".

(** ** Errors and faults *)

(** The [error] values the package returns: its two sentinels, the
    [*Error] that [responseToError] decodes from a response with a status
    of 400 or more, and the errors of [net/http], [ioutil] and
    [encoding/json] that [call] passes on. *)
Inductive error : Type :=
  | ErrFlagNotFound
  | ErrInvalidFlagType
  | APIError (code message : string) (statusCode : Z)
  | OtherError (msg : string).

(** Run-time panics of the Go code. *)
Inductive fault : Type :=
  | NilDereference
  | TypeAssertion
  | NilFuncCall.

(** ** The comparison tables *)

Definition boolOperations : gmap string (bool → bool → bool) :=
  list_to_map [
    ("==", fun a b => Bool.eqb a b);
    ("!=", fun a b => negb (Bool.eqb a b)) ].

Definition numberOperations : gmap string (float → float → bool) :=
  list_to_map [
    ("==", fun a b => PrimFloat.eqb a b);
    ("!=", fun a b => negb (PrimFloat.eqb a b));
    ("<", fun a b => PrimFloat.ltb a b);
    ("<=", fun a b => PrimFloat.leb a b);
    (">", fun a b => PrimFloat.ltb b a);
    (">=", fun a b => PrimFloat.leb b a) ].

Definition stringOperations : gmap string (string → string → bool) :=
  list_to_map [
    ("==", fun a b => String.eqb a b);
    ("!=", fun a b => negb (String.eqb a b));
    ("<", fun a b => String.ltb a b);
    ("<=", fun a b => String.leb a b);
    (">", fun a b => String.ltb b a);
    (">=", fun a b => String.leb b a) ].

(** ** Client state and the outside world *)

Record client := {
  flags : gmap string flag;
  flagsByID : gmap string flag;
  overrides : gmap string override;
  identities : gmap string identity;
  lastRefresh : Z
}.

(** [time.Time{}]: January 1 of year 1, in nanoseconds from the Unix
    epoch. *)
Definition zeroTime : Z := -62135596800 * second.

(** The state part of [NewClient]. [flagsByID] is left nil there; a nil
    map reads as an empty one. *)
Definition NewClient : client :=
  {| flags := ∅; flagsByID := ∅; overrides := ∅; identities := ∅;
     lastRefresh := zeroTime |}.

(** A request sent through [call]. *)
Inductive request : Type :=
  | ReqInitialize
  | ReqIdentity (identifier : string).

(** How a [call] ends: the body is decoded into the value passed, or an
    error is returned, or the HTTP client reports an error and hands back
    no response, in which case [do] reads [res.StatusCode] through a nil
    pointer. *)
Inductive reply (A : Type) : Type :=
  | Decoded (a : A)
  | Failed (err : error)
  | NoResponse.
Arguments Decoded {A} a.
Arguments Failed {A} err.
Arguments NoResponse {A}.

(** The world answers the n-th interaction of a run: a clock reading, the
    end of [GET /sdk/initialize], the end of
    [GET sdk/identities/<identifier>]. *)
Record Env := {
  now_at : nat → Z;
  initialize_at : nat → reply response;
  identity_at : nat → string → reply identity
}.

(** The client together with the number of interactions made and the log
    of the requests sent. *)
Record state := {
  cl : client;
  tick : nat;
  calls : list request
}.

(** ** The monad of the embedding *)

Inductive outcome (A : Type) : Type :=
  | Done (a : A)
  | Panic (p : fault)
  | OutOfFuel.
Arguments Done {A} a.
Arguments Panic {A} p.
Arguments OutOfFuel {A}.

Definition M (A : Type) : Type := state → outcome A * state.

Definition ret {A} (a : A) : M A := fun s => (Done a, s).

Definition bind {A B} (c : M A) (k : A → M B) : M B :=
  fun s =>
    match c s with
    | (Done a, s') => k a s'
    | (Panic p, s') => (Panic p, s')
    | (OutOfFuel, s') => (OutOfFuel, s')
    end.

Definition panic {A} (p : fault) : M A := fun s => (Panic p, s).
Definition outOfFuel {A} : M A := fun s => (OutOfFuel, s).
Definition get : M state := fun s => (Done s, s).
Definition setClient (c : client) : M unit :=
  fun s => (Done tt, {| cl := c; tick := tick s; calls := calls s |}).

Notation "'let*' x ':=' c 'in' k" := (bind c (fun x => k))
  (at level 10, x name, c at level 200, k at level 200).

Section Engine.

Context (env : Env).

(** [time.Now()] *)
Definition timeNow : M Z :=
  fun s => (Done (now_at env (tick s)),
            {| cl := cl s; tick := S (tick s); calls := calls s |}).

(** [s.call(method, path, v)]: the request is logged and the world says
    how it ends. The result is the error returned or the value decoded
    into [v]. *)
Definition call {A} (req : request) (answer : nat → reply A)
  : M (error + A) :=
  fun s =>
    let s' := {| cl := cl s; tick := S (tick s); calls := calls s ++ [req] |} in
    match answer (tick s) with
    | Decoded a => (Done (inr a), s')
    | Failed err => (Done (inl err), s')
    | NoResponse => (Panic NilDereference, s')
    end.

(** [s.call(http.MethodGet, "/sdk/initialize", resp)] *)
Definition callInitialize : M (error + response) :=
  call ReqInitialize (initialize_at env).

(** [s.call(http.MethodGet, "sdk/identities/" + identifier, newIdentity)] *)
Definition callIdentity (identifier : string) : M (error + identity) :=
  call (ReqIdentity identifier) (fun n => identity_at env n identifier).

(** ** The identity cache *)

(** [i.fetchedAt.Add(identityRefreshRate).Before(time.Now())] *)
Definition isStale (i : identity) : M bool :=
  let* now := timeNow in
  ret (Z.ltb (fetchedAt i + identityRefreshRate) now).

Definition stamp (i : identity) (now : Z) : identity :=
  {| identity_ID := identity_ID i;
     identity_Identifier := identity_Identifier i;
     identity_Overrides := identity_Overrides i;
     fetchedAt := now |}.

(** The client after an assignment to its [identities] map. *)
Definition withIdentities (c : client) (ids : gmap string identity) : client :=
  {| flags := flags c; flagsByID := flagsByID c; overrides := overrides c;
     identities := ids; lastRefresh := lastRefresh c |}.

Definition setIdentities (ids : gmap string identity) : M unit :=
  let* s := get in
  setClient (withIdentities (cl s) ids).

(** The part of [fetchIdentity] after the cache has missed. *)
Definition fetchIdentityRemote (identifier : string)
  : M (option identity * option error) :=
  let* r := callIdentity identifier in
  match r with
  | inl err => ret (None, Some err)
  | inr decoded =>
      let* now := timeNow in
      let newIdentity := stamp decoded now in
      let* s := get in
      let* _ := setIdentities
        (<[identity_Identifier newIdentity := newIdentity]> (identities (cl s))) in
      ret (Some newIdentity, None)
  end.

Definition fetchIdentity (identifier : string)
  : M (option identity * option error) :=
  let* s := get in
  match identities (cl s) !! identifier with
  | Some i =>
      let* stale := isStale i in
      if negb stale then ret (Some i, None)
      else fetchIdentityRemote identifier
  | None => fetchIdentityRemote identifier
  end.

(** ** The state refresh *)

(** [for _, f := range resp.Flags { flags[f.Key] = f; flagsByID[f.ID] = f }]
    on the two maps under construction. Reading [f.Key] through a nil
    element panics and leaves the loop. *)
Fixpoint fillFlags (l : list (option flag)) (fs fsByID : gmap string flag)
  : M (gmap string flag * gmap string flag) :=
  match l with
  | [] => ret (fs, fsByID)
  | None :: _ => panic NilDereference
  | Some f :: rest =>
      fillFlags rest (<[flag_Key f := f]> fs) (<[flag_ID f := f]> fsByID)
  end.

(** [for _, o := range resp.Overrides { overrides[o.Key] = o }] *)
Fixpoint fillOverrides (l : list (option override))
  (ovs : gmap string override) : M (gmap string override) :=
  match l with
  | [] => ret ovs
  | None :: _ => panic NilDereference
  | Some o :: rest => fillOverrides rest (<[override_Key o := o]> ovs)
  end.

(** What the two loops build from arrays without a nil element. *)
Definition indexFlagsByKey (l : list flag) : gmap string flag :=
  foldl (fun m f => <[flag_Key f := f]> m) ∅ l.

Definition indexFlagsByID (l : list flag) : gmap string flag :=
  foldl (fun m f => <[flag_ID f := f]> m) ∅ l.

Definition indexOverrides (l : list override) : gmap string override :=
  foldl (fun m o => <[override_Key o := o]> m) ∅ l.

(** The loop [for identifier, i := range s.identities] that deletes the
    stale entries. Each test reads the clock. Go leaves the order of the
    iteration open; it is the order of [map_to_list] here. *)
Fixpoint sweep (entries : list (string * identity))
  (ids : gmap string identity) : M (gmap string identity) :=
  match entries with
  | [] => ret ids
  | (identifier, i) :: rest =>
      let* stale := isStale i in
      sweep rest (if stale then delete identifier ids else ids)
  end.

(** [s.flags = flags; s.flagsByID = flagsByID; s.overrides = overrides] *)
Definition setSnapshot (fs fsByID : gmap string flag)
  (ovs : gmap string override) : M unit :=
  let* s := get in
  setClient {| flags := fs; flagsByID := fsByID; overrides := ovs;
               identities := identities (cl s);
               lastRefresh := lastRefresh (cl s) |}.

(** [s.lastRefresh = now] *)
Definition setLastRefresh (now : Z) : M unit :=
  let* s := get in
  setClient {| flags := flags (cl s); flagsByID := flagsByID (cl s);
               overrides := overrides (cl s);
               identities := identities (cl s); lastRefresh := now |}.

Definition refreshState : M (option error) :=
  let* now := timeNow in
  let* s := get in
  if Z.ltb now (lastRefresh (cl s) + stateRefreshRate) then ret None
  else
    let* r := callInitialize in
    match r with
    | inl err => ret (Some err)
    | inr resp =>
        let* filled := fillFlags (resp_Flags resp) ∅ ∅ in
        let* overrides := fillOverrides (resp_Overrides resp) ∅ in
        let* _ := setSnapshot (fst filled) (snd filled) overrides in
        let* s := get in
        let* ids := sweep (map_to_list (identities (cl s))) (identities (cl s)) in
        let* _ := setIdentities ids in
        let* _ := setLastRefresh now in
        ret None
    end.

(** ** Type assertions and table calls *)

(** [v.(bool)], [v.(float64)], [v.(string)]: the single-result form, which
    panics when the dynamic type differs (the nil interface included). *)
Definition assertBool (v : value) : M bool :=
  match v with VBool b => ret b | _ => panic TypeAssertion end.

Definition assertNumber (v : value) : M float :=
  match v with VNumber n => ret n | _ => panic TypeAssertion end.

Definition assertString (v : value) : M string :=
  match v with VString x => ret x | _ => panic TypeAssertion end.

(** [table[op](a, b)]: a missing key yields the nil func, and calling it
    panics. *)
Definition applyOp {A} (table : gmap string (A → A → bool)) (op : string)
  (a b : A) : M bool :=
  match table !! op with
  | Some f => ret (f a b)
  | None => panic NilFuncCall
  end.

(** ** Dynamic rules *)

(** What one iteration of the loop over [f.DynamicRules] decides: return
    the zero value and [err], return the rule's value, or go on. *)
Inductive verdict : Type :=
  | Abort (err : error)
  | Hit
  | Miss.

Definition verdictOf (c : bool) : verdict := if c then Hit else Miss.

Section Rules.

(** The three entry points, as one iteration calls them. *)
Context (boolFlag : FlagOptions → M (bool * option error))
        (numberFlag : FlagOptions → M (float * option error))
        (stringFlag : FlagOptions → M (string * option error)).

(** The body of the loop up to the test of the comparison. The three entry
    points have the same text here; they differ in the zero value returned
    with an error and in the assertion applied to [rule.Value]. A type
    that is none of the three cases falls through the [switch]. *)
Definition evalExpression (identifier : string) (rule : dynamicRule)
  : M verdict :=
  let* s := get in
  match flagsByID (cl s) !! expr_FlagID (rule_Expression rule) with
  | None => panic NilDereference
  | Some expressionFlag =>
      let opts := {| Key := flag_Key expressionFlag;
                     Identifier := identifier |} in
      if String.eqb (flag_Type expressionFlag) typeBoolean then
        let* r := boolFlag opts in
        match r with
        | (_, Some err) => ret (Abort err)
        | (flagValue, None) =>
            let* ruleExpressionValue :=
              assertBool (expr_Value (rule_Expression rule)) in
            let* c := applyOp boolOperations (expr_Op (rule_Expression rule))
                        flagValue ruleExpressionValue in
            ret (verdictOf c)
        end
      else if String.eqb (flag_Type expressionFlag) typeNumber then
        let* r := numberFlag opts in
        match r with
        | (_, Some err) => ret (Abort err)
        | (flagValue, None) =>
            let* ruleExpressionValue :=
              assertNumber (expr_Value (rule_Expression rule)) in
            let* c := applyOp numberOperations (expr_Op (rule_Expression rule))
                        flagValue ruleExpressionValue in
            ret (verdictOf c)
        end
      else if String.eqb (flag_Type expressionFlag) typeString then
        let* r := stringFlag opts in
        match r with
        | (_, Some err) => ret (Abort err)
        | (flagValue, None) =>
            let* ruleExpressionValue :=
              assertString (expr_Value (rule_Expression rule)) in
            let* c := applyOp stringOperations (expr_Op (rule_Expression rule))
                        flagValue ruleExpressionValue in
            ret (verdictOf c)
        end
      else ret Miss
  end.

(** [for _, rule := range f.DynamicRules]: [Some] is a [return] from inside
    the loop, [None] is the loop running to its end. *)
Fixpoint forRules {T} (zero : T) (assertT : value → M T)
  (identifier : string) (rules : list dynamicRule)
  : M (option (T * option error)) :=
  match rules with
  | [] => ret None
  | rule :: rest =>
      let* v := evalExpression identifier rule in
      match v with
      | Abort err => ret (Some (zero, Some err))
      | Hit =>
          let* ruleValue := assertT (rule_Value rule) in
          ret (Some (ruleValue, None))
      | Miss => forRules zero assertT identifier rest
      end
  end.

End Rules.

(** ** The typed entry points

    Go recurses without bound when rules refer to each other in a cycle;
    [fuel] bounds the depth of the calls, and [OutOfFuel] is the outcome of
    a run that would go deeper. *)

Fixpoint BoolFlag (fuel : nat) (opts : FlagOptions) {struct fuel}
  : M (bool * option error) :=
  match fuel with
  | O => outOfFuel
  | S fuel' =>
      let* _ := refreshState in
      let* s := get in
      match flags (cl s) !! Key opts with
      | None => ret (false, Some ErrFlagNotFound)
      | Some f =>
          if negb (String.eqb (flag_Type f) typeBoolean)
          then ret (false, Some ErrInvalidFlagType)
          else
            let afterIdentity : M (bool * option error) :=
              let* s := get in
              match overrides (cl s) !! Key opts with
              | Some val =>
                  let* booleanValue := assertBool (override_Value val) in
                  ret (booleanValue, None)
              | None =>
                  let* r := forRules (BoolFlag fuel') (NumberFlag fuel')
                              (StringFlag fuel') false assertBool
                              (Identifier opts) (flag_DynamicRules f) in
                  match r with
                  | Some res => ret res
                  | None =>
                      let* booleanValue := assertBool (flag_Value f) in
                      ret (booleanValue, None)
                  end
              end in
            if negb (String.eqb (Identifier opts) EmptyString) then
              let* r := fetchIdentity (Identifier opts) in
              match r with
              | (_, Some err) => ret (false, None)
              | (None, None) => panic NilDereference
              | (Some i, None) =>
                  match identity_Overrides i !! Key opts with
                  | Some val =>
                      let* booleanValue := assertBool val in
                      ret (booleanValue, None)
                  | None => afterIdentity
                  end
              end
            else afterIdentity
      end
  end

with NumberFlag (fuel : nat) (opts : FlagOptions) {struct fuel}
  : M (float * option error) :=
  match fuel with
  | O => outOfFuel
  | S fuel' =>
      let* _ := refreshState in
      let* s := get in
      match flags (cl s) !! Key opts with
      | None => ret (0%float, Some ErrFlagNotFound)
      | Some f =>
          if negb (String.eqb (flag_Type f) typeNumber)
          then ret (0%float, Some ErrInvalidFlagType)
          else
            let afterIdentity : M (float * option error) :=
              let* s := get in
              match overrides (cl s) !! Key opts with
              | Some val =>
                  let* numberValue := assertNumber (override_Value val) in
                  ret (numberValue, None)
              | None =>
                  let* r := forRules (BoolFlag fuel') (NumberFlag fuel')
                              (StringFlag fuel') 0%float assertNumber
                              (Identifier opts) (flag_DynamicRules f) in
                  match r with
                  | Some res => ret res
                  | None =>
                      let* numberValue := assertNumber (flag_Value f) in
                      ret (numberValue, None)
                  end
              end in
            if negb (String.eqb (Identifier opts) EmptyString) then
              let* r := fetchIdentity (Identifier opts) in
              match r with
              | (_, Some err) => ret (0%float, Some err)
              | (None, None) => panic NilDereference
              | (Some i, None) =>
                  match identity_Overrides i !! Key opts with
                  | Some val =>
                      let* numberValue := assertNumber val in
                      ret (numberValue, None)
                  | None => afterIdentity
                  end
              end
            else afterIdentity
      end
  end

with StringFlag (fuel : nat) (opts : FlagOptions) {struct fuel}
  : M (string * option error) :=
  match fuel with
  | O => outOfFuel
  | S fuel' =>
      let* _ := refreshState in
      let* s := get in
      match flags (cl s) !! Key opts with
      | None => ret (EmptyString, Some ErrFlagNotFound)
      | Some f =>
          if negb (String.eqb (flag_Type f) typeString)
          then ret (EmptyString, Some ErrInvalidFlagType)
          else
            let afterIdentity : M (string * option error) :=
              let* s := get in
              match overrides (cl s) !! Key opts with
              | Some val =>
                  let* stringValue := assertString (override_Value val) in
                  ret (stringValue, None)
              | None =>
                  let* r := forRules (BoolFlag fuel') (NumberFlag fuel')
                              (StringFlag fuel') EmptyString assertString
                              (Identifier opts) (flag_DynamicRules f) in
                  match r with
                  | Some res => ret res
                  | None =>
                      let* stringValue := assertString (flag_Value f) in
                      ret (stringValue, None)
                  end
              end in
            if negb (String.eqb (Identifier opts) EmptyString) then
              let* r := fetchIdentity (Identifier opts) in
              match r with
              | (_, Some err) => ret (EmptyString, Some err)
              | (None, None) => panic NilDereference
              | (Some i, None) =>
                  match identity_Overrides i !! Key opts with
                  | Some val =>
                      let* stringValue := assertString val in
                      ret (stringValue, None)
                  | None => afterIdentity
                  end
              end
            else afterIdentity
      end
  end.

End Engine.

(** ** The entry points by kind

    The statements below hold for the three entry points alike; [entry]
    selects one of them by the kind of value it returns. *)

Inductive kind : Type := KBool | KNumber | KString.

Definition T (k : kind) : Type :=
  match k with KBool => bool | KNumber => float | KString => string end.

Definition typeName (k : kind) : string :=
  match k with
  | KBool => typeBoolean
  | KNumber => typeNumber
  | KString => typeString
  end.

Definition zero (k : kind) : T k :=
  match k with KBool => false | KNumber => 0%float | KString => EmptyString end.

Definition assertT (k : kind) : value → M (T k) :=
  match k with
  | KBool => assertBool
  | KNumber => assertNumber
  | KString => assertString
  end.

(** The value of kind [k] as [encoding/json] stores it. *)
Definition inject (k : kind) : T k → value :=
  match k with KBool => VBool | KNumber => VNumber | KString => VString end.

Definition entry (env : Env) (k : kind) (fuel : nat) (opts : FlagOptions)
  : M (T k * option error) :=
  match k with
  | KBool => BoolFlag env fuel opts
  | KNumber => NumberFlag env fuel opts
  | KString => StringFlag env fuel opts
  end.

(** The comparison of a rule whose referenced flag has kind [k]. *)
Definition compare (k : kind) (op : string) : T k → T k → M bool :=
  match k with
  | KBool => applyOp boolOperations op
  | KNumber => applyOp numberOperations op
  | KString => applyOp stringOperations op
  end.

(** A state after [n] more clock readings and nothing else. *)
Definition later (n : nat) (s : state) : state :=
  {| cl := cl s; tick := n + tick s; calls := calls s |}.

(** [o] is a Go return with a non-nil error. *)
Definition returnsError {A} (o : outcome (A * option error)) : Prop :=
  ∃ a err, o = Done (a, Some err).

(** ** Vocabulary of the statements *)

(** What [BoolFlag], [NumberFlag] and [StringFlag] return when the identity
    fetch fails with [err]. *)
Definition onIdentityError (k : kind) (err : error) : T k * option error :=
  match k with
  | KBool => (false, None)
  | KNumber => (0%float, Some err)
  | KString => (EmptyString, Some err)
  end.

(** The operator is missing from the table of kind [k]. *)
Definition noOperation (k : kind) (op : string) : Prop :=
  match k with
  | KBool => boolOperations !! op = None
  | KNumber => numberOperations !! op = None
  | KString => stringOperations !! op = None
  end.

(** One iteration, and the whole loop, as an entry point running with
    [S fuel] executes them. *)
Definition evalAt (env : Env) (fuel : nat) : string → dynamicRule → M verdict :=
  evalExpression (BoolFlag env fuel) (NumberFlag env fuel)
    (StringFlag env fuel).

Definition rulesAt (env : Env) (k : kind) (fuel : nat)
  : string → list dynamicRule → M (option (T k * option error)) :=
  forRules (BoolFlag env fuel) (NumberFlag env fuel) (StringFlag env fuel)
    (zero k) (assertT k).

(** The end of an entry point: the global override, else the rules, else
    the default value. *)
Definition afterIdentity (env : Env) (k : kind) (fuel : nat)
  (opts : FlagOptions) (f : flag) : M (T k * option error) :=
  let* s := get in
  match overrides (cl s) !! Key opts with
  | Some val =>
      let* x := assertT k (override_Value val) in
      ret (x, None)
  | None =>
      let* r := rulesAt env k fuel (Identifier opts) (flag_DynamicRules f) in
      match r with
      | Some res => ret res
      | None =>
          let* x := assertT k (flag_Value f) in
          ret (x, None)
      end
  end.

(** The one algorithm the three entry points are instances of. *)
Definition evaluate (env : Env) (k : kind) (fuel : nat) (opts : FlagOptions)
  : M (T k * option error) :=
  let* _ := refreshState env in
  let* s := get in
  match flags (cl s) !! Key opts with
  | None => ret (zero k, Some ErrFlagNotFound)
  | Some f =>
      if negb (String.eqb (flag_Type f) (typeName k))
      then ret (zero k, Some ErrInvalidFlagType)
      else if negb (String.eqb (Identifier opts) EmptyString) then
        let* r := fetchIdentity env (Identifier opts) in
        match r with
        | (_, Some err) => ret (onIdentityError k err)
        | (None, None) => panic NilDereference
        | (Some i, None) =>
            match identity_Overrides i !! Key opts with
            | Some val =>
                let* x := assertT k val in
                ret (x, None)
            | None => afterIdentity env k fuel opts f
            end
        end
      else afterIdentity env k fuel opts f
  end.

(** The rules of a list are tested one after the other, from [s] to [s'],
    and every comparison is false. *)
Inductive allMiss (eval : dynamicRule → M verdict)
  : list dynamicRule → state → state → Prop :=
  | allMiss_nil s : allMiss eval [] s s
  | allMiss_cons rule rest s s' s'' :
      eval rule s = (Done Miss, s') →
      allMiss eval rest s' s'' →
      allMiss eval (rule :: rest) s s''.

(** The same as a computation: the state after the list when every rule
    misses, nothing otherwise. *)
Fixpoint runMisses (eval : dynamicRule → M verdict) (rules : list dynamicRule)
  (s : state) : option state :=
  match rules with
  | [] => Some s
  | rule :: rest =>
      match eval rule s with
      | (Done Miss, s') => runMisses eval rest s'
      | _ => None
      end
  end.

(** An entry point of kind [k] called with [opts] in state [s] finds the
    flag [f] of its type and gets past both overrides; [s2] is the state
    in which it looks at the rules of [f]. *)
Definition reachesRules (env : Env) (k : kind) (opts : FlagOptions)
  (s : state) (f : flag) (s2 : state) : Prop :=
  ∃ r0 s1,
    refreshState env s = (Done r0, s1) ∧
    flags (cl s1) !! Key opts = Some f ∧
    flag_Type f = typeName k ∧
    ((Identifier opts = EmptyString ∧ s2 = s1) ∨
     (Identifier opts ≠ EmptyString ∧
      ∃ i, fetchIdentity env (Identifier opts) s1 = (Done (Some i, None), s2) ∧
           identity_Overrides i !! Key opts = None)) ∧
    overrides (cl s2) !! Key opts = None.

(** What the table of kind [k] gives for [op] on [y] and [v]: the result
    of the func it holds under [op], nothing when it holds none. *)
Definition tableResult (k : kind) (op : string) : T k → T k → option bool :=
  match k with
  | KBool => fun y v => (fun cmp => cmp y v) <$> boolOperations !! op
  | KNumber => fun y v => (fun cmp => cmp y v) <$> numberOperations !! op
  | KString => fun y v => (fun cmp => cmp y v) <$> stringOperations !! op
  end.

(** The comparison of [rule], made in state [s] for [identifier], is [b]:
    the flag the rule refers to is found and is of kind [k'], its
    evaluation for [identifier] returns a value [y] and no error, leaving
    state [s'], the comparison value of the rule is a [v] of kind [k'], and
    the table of [k'] gives [b] for the rule's operator on [y] and [v]. *)
Definition comparison (env : Env) (fuel : nat) (identifier : string)
  (rule : dynamicRule) (b : bool) (s s' : state) : Prop :=
  ∃ (ef : flag) (k' : kind) (y v : T k'),
    flagsByID (cl s) !! expr_FlagID (rule_Expression rule) = Some ef ∧
    flag_Type ef = typeName k' ∧
    entry env k' fuel {| Key := flag_Key ef; Identifier := identifier |} s
      = (Done (y, None), s') ∧
    expr_Value (rule_Expression rule) = inject k' v ∧
    tableResult k' (expr_Op (rule_Expression rule)) y v = Some b.

(** The comparisons of the rules of a list, made one after the other from
    [s] to [s'], each in the state the one before it left, are all
    false. *)
Inductive allFalse (env : Env) (fuel : nat) (identifier : string)
  : list dynamicRule → state → state → Prop :=
  | allFalse_nil s : allFalse env fuel identifier [] s s
  | allFalse_cons rule rest s s' s'' :
      comparison env fuel identifier rule false s s' →
      allFalse env fuel identifier rest s' s'' →
      allFalse env fuel identifier (rule :: rest) s s''.

(** The entry point of kind [k] ends with [r] as soon as it may nest its
    calls to depth [n], and then for every larger bound. *)
Definition entryFrom (env : Env) (k : kind) (n : nat) (opts : FlagOptions)
  (s : state) (r : outcome (T k * option error) * state) : Prop :=
  ∀ m, (n ≤ m)%nat → entry env k m opts s = r.

(** [c'] does what [c] does wherever [c] does not run out of fuel. *)
Definition refines {A} (c c' : M A) : Prop :=
  ∀ s o s', c s = (o, s') → o ≠ OutOfFuel → c' s = (o, s').

(** The cache has no usable entry for [identifier] in state [s]: none at
    all, or one found stale; [s1] is the state in which the request is
    then sent. *)
Definition cacheMiss (env : Env) (identifier : string) (s s1 : state) : Prop :=
  match identities (cl s) !! identifier with
  | None => s1 = s
  | Some i =>
      fetchedAt i + identityRefreshRate < now_at env (tick s) ∧ s1 = later 1 s
  end.


(** ** Vocabulary of the further properties *)

(** The requests an evaluation for [identifier] may send. *)
Definition allowedRequest (identifier : string) (r : request) : Prop :=
  r = ReqInitialize ∨ (identifier ≠ EmptyString ∧ r = ReqIdentity identifier).

(** [c] only appends allowed requests to the log. *)
Definition sendsOnly (identifier : string) {A} (c : M A) : Prop :=
  ∀ s o s', c s = (o, s') →
    ∃ l, calls s' = calls s ++ l ∧ Forall (allowedRequest identifier) l.

(** No clock reading reaches the end of the refresh interval of [s]. *)
Definition inWindow (env : Env) (s : state) : Prop :=
  ∀ n, now_at env n < lastRefresh (cl s) + stateRefreshRate.

(** An evaluation for [identifier] can be answered from memory: no refresh
    is due at any clock reading and, unless the identifier is empty, the
    cache has an entry for it that no clock reading finds stale. *)
Definition servedFromMemory (env : Env) (identifier : string) (s : state)
  : Prop :=
  inWindow env s ∧
  (identifier = EmptyString ∨
   ∃ i, identities (cl s) !! identifier = Some i ∧
        ∀ n, now_at env n ≤ fetchedAt i + identityRefreshRate).

(** While [identifier] is served from memory, [c] ends in the same way
    from any two states with the same client, and leaves client and log as
    they were. *)
Definition steady (env : Env) (identifier : string) {A} (c : M A) : Prop :=
  ∀ s t, servedFromMemory env identifier s → cl s = cl t →
    ∃ o s' t', c s = (o, s') ∧ c t = (o, t') ∧
      cl s' = cl s ∧ cl t' = cl t ∧
      calls s' = calls s ∧ calls t' = calls t.

(** An entry point called with [opts] gets past the identity step, from
    [s1] to [s2]: there is no identifier, or the identity fetched for the
    identifier has no override for the key. *)
Definition pastIdentity (env : Env) (opts : FlagOptions) (s1 s2 : state)
  : Prop :=
  (Identifier opts = EmptyString ∧ s2 = s1) ∨
  (Identifier opts ≠ EmptyString ∧
   ∃ i, fetchIdentity env (Identifier opts) s1 = (Done (Some i, None), s2) ∧
        identity_Overrides i !! Key opts = None).

(** The flag type is none of the three the [switch] knows. *)
Definition unknownType (ty : string) : Prop :=
  ty ≠ typeBoolean ∧ ty ≠ typeNumber ∧ ty ≠ typeString.

(** What an entry point does once the refresh has returned. *)
Definition afterRefresh (env : Env) (k : kind) (fuel : nat)
  (opts : FlagOptions) : M (T k * option error) :=
  let* s := get in
  match flags (cl s) !! Key opts with
  | None => ret (zero k, Some ErrFlagNotFound)
  | Some f =>
      if negb (String.eqb (flag_Type f) (typeName k))
      then ret (zero k, Some ErrInvalidFlagType)
      else if negb (String.eqb (Identifier opts) EmptyString) then
        let* r := fetchIdentity env (Identifier opts) in
        match r with
        | (_, Some err) => ret (onIdentityError k err)
        | (None, None) => panic NilDereference
        | (Some i, None) =>
            match identity_Overrides i !! Key opts with
            | Some val =>
                let* x := assertT k val in
                ret (x, None)
            | None => afterIdentity env k fuel opts f
            end
        end
      else afterIdentity env k fuel opts f
  end.

(** The loop that fills an index: each element is stored under its key,
    a later element replacing an earlier one with the same key. The three
    indexes of the refresh are instances of it. *)
Definition indexBy {A} (key : A → string) (l : list A) : gmap string A :=
  foldl (fun m x => <[key x := x]> m) ∅ l.

(** The operators the table of kind [k] has. *)
Definition operatorsOf (k : kind) : list string :=
  match k with
  | KBool => ["=="; "!="]
  | _ => ["=="; "!="; "<"; "<="; ">"; ">="]
  end.

(** ** The HTTP layer under [call] *)

(** What [do] needs of an [*http.Response]: the status, and what
    [ioutil.ReadAll] gets from the body (the bytes read, and an error when
    the read stopped early). *)
Record httpResponse := {
  StatusCode : Z;
  bodyData : string;
  bodyError : option error
}.

(** A non-nil [error] interface as [do] returns it: an error value, or the
    nil [*Error] that [responseToError] returns when the body has no
    [error] member, which is not the nil interface. *)
Inductive goError : Type :=
  | ErrorOf (e : error)
  | NilAPIError.

Section HTTP.

(** [json.Unmarshal] into a [rawError] and into the value passed to
    [call]. *)
Context {A : Type}
        (unmarshalRawError : string → error + option (string * string * Z))
        (unmarshal : string → error + A).

Definition responseToError (resBody : string) : goError :=
  match unmarshalRawError resBody with
  | inl err => ErrorOf err
  | inr None => NilAPIError
  | inr (Some (code, message, statusCode)) =>
      ErrorOf (APIError code message statusCode)
  end.

(** [do], given what [s.HTTPClient.Do(req)] returned. The result is the
    error returned (none for nil) and the value decoded into [v], if
    any. *)
Definition do (res : option httpResponse) (err : option error)
  : outcome (option goError * option A) :=
  let read : outcome (string * option error) :=
    match err with
    | None =>
        match res with
        | None => Panic NilDereference
        | Some r => Done (bodyData r, bodyError r)
        end
    | Some e => Done (EmptyString, Some e)
    end in
  match read with
  | Done (resBody, err) =>
      match res with
      | None => Panic NilDereference
      | Some r =>
          let err :=
            if Z.leb 400 (StatusCode r) then Some (responseToError resBody)
            else option_map ErrorOf err in
          match err with
          | Some e => Done (Some e, None)
          | None =>
              match unmarshal resBody with
              | inl e => Done (Some (ErrorOf e), None)
              | inr a => Done (None, Some a)
              end
          end
      end
  | Panic p => Panic p
  | OutOfFuel => OutOfFuel
  end.

End HTTP.

(** ** Sample data

    A snapshot with a boolean flag [is_beta] and a string flag [tier] whose
    two rules both test [is_beta == true]; a world whose clock advances by
    one second per interaction and whose requests all succeed. *)

Module Sample.

Definition isBeta : flag :=
  {| flag_ID := "f1"; flag_Key := "is_beta"; flag_Type := "boolean";
     flag_Value := VBool true; flag_DynamicRules := [] |}.

Definition when (id op : string) (v result : value) : dynamicRule :=
  {| rule_Expression :=
       {| expr_FlagID := id; expr_Op := op; expr_Value := v |};
     rule_Value := result |}.

Definition whenBeta : string → value → value → dynamicRule := when "f1".

Definition tierWith (rules : list dynamicRule) : flag :=
  {| flag_ID := "f2"; flag_Key := "tier"; flag_Type := "string";
     flag_Value := VString "free"; flag_DynamicRules := rules |}.

Definition tier : flag :=
  tierWith [ whenBeta "==" (VBool true) (VString "beta");
             whenBeta "==" (VBool true) (VString "never") ].

Definition planLimit : flag :=
  {| flag_ID := "f3"; flag_Key := "plan_limit"; flag_Type := "number";
     flag_Value := VNumber 10; flag_DynamicRules := [] |}.

Definition user (identifier : string) (ovs : gmap string value) (t : Z)
  : identity :=
  {| identity_ID := "i1"; identity_Identifier := identifier;
     identity_Overrides := ovs; fetchedAt := t |}.

Definition snapshotOf (tierFlag : flag) : response :=
  {| resp_Flags := Some <$> [isBeta; tierFlag; planLimit];
     resp_Overrides := [] |}.

Definition snapshot : response := snapshotOf tier.

(** The same flags with global overrides for [is_beta] and [plan_limit]. *)
Definition overridden : response :=
  {| resp_Flags := Some <$> [isBeta; tier; planLimit];
     resp_Overrides :=
       Some <$>
       [ {| override_ID := "o1"; override_Key := "is_beta";
            override_Value := VBool true |};
         {| override_ID := "o2"; override_Key := "plan_limit";
            override_Value := VNumber 25 |} ] |}.

Definition clock (n : nat) : Z := Z.of_nat n * second.

(** Every request succeeds; an identity comes back without overrides. *)
Definition world : Env :=
  {| now_at := clock;
     initialize_at := fun _ => Decoded snapshot;
     identity_at := fun _ identifier => Decoded (user identifier ∅ 0) |}.

(** Every request succeeds; an identity comes back with [is_beta]
    overridden to [false]. *)
Definition overriding : Env :=
  {| now_at := clock;
     initialize_at := fun _ => Decoded overridden;
     identity_at := fun _ identifier =>
       Decoded (user identifier {[ "is_beta" := VBool false ]} 0) |}.

(** The error of a response with status 503. *)
Definition unavailable : error :=
  APIError "unavailable" "service unavailable" 503.

(** Every request is answered with status 503. *)
Definition failing : Env :=
  {| now_at := clock;
     initialize_at := fun _ => Failed unavailable;
     identity_at := fun _ _ => Failed unavailable |}.

(** The body of the refresh has [null] for its second flag. *)
Definition holed : Env :=
  {| now_at := clock;
     initialize_at := fun _ =>
       Decoded {| resp_Flags := [Some isBeta; None; Some planLimit];
                  resp_Overrides := [] |};
     identity_at := fun _ identifier => Decoded (user identifier ∅ 0) |}.

(** Identities come back under another identifier than the one asked for,
    and requests are answered with status 503 once four interactions have
    been made. *)
Definition aliasing : Env :=
  {| now_at := clock;
     initialize_at := fun _ => Decoded snapshot;
     identity_at := fun n _ =>
       if (n <? 4)%nat then Decoded (user "canonical" ∅ 0)
       else Failed unavailable |}.

(** The client holding the objects of [resp]. *)
Definition clientOf (resp : response) (ids : gmap string identity) (t : Z)
  : client :=
  {| flags := indexFlagsByKey (omap id (resp_Flags resp));
     flagsByID := indexFlagsByID (omap id (resp_Flags resp));
     overrides := indexOverrides (omap id (resp_Overrides resp));
     identities := ids;
     lastRefresh := t |}.

(** A client that installed [resp] at time 0, at the n-th interaction. *)
Definition refreshed (resp : response) (n : nat) : state :=
  {| cl := clientOf resp ∅ 0; tick := n; calls := [] |}.

(** The same with [snapshot] and a given identity cache. *)
Definition fresh (ids : gmap string identity) (n : nat) : state :=
  {| cl := clientOf snapshot ids 0; tick := n; calls := [] |}.

(** A client whose snapshot is older than the refresh interval. *)
Definition due (n : nat) : state :=
  {| cl := clientOf snapshot ∅ (-61 * second); tick := n; calls := [] |}.

(** A client just made by [NewClient]. *)
Definition brandNew (n : nat) : state :=
  {| cl := NewClient; tick := n; calls := [] |}.


(** A world whose clock stands still at one second. *)
Definition still : Env :=
  {| now_at := fun _ => second;
     initialize_at := fun _ => Decoded snapshot;
     identity_at := fun _ identifier => Decoded (user identifier ∅ 0) |}.

(** A flag whose only rule tests the flag itself. *)
Definition loop : flag :=
  tierWith [ when "f2" "==" (VString "free") (VString "beta") ].

(** A flag of a type the engine does not know. *)
Definition blob : flag :=
  {| flag_ID := "f4"; flag_Key := "blob"; flag_Type := "json";
     flag_Value := VObject []; flag_DynamicRules := [] |}.

End Sample.

(** * Properties *)

(** ** Basic facts of the monad *)

Lemma bind_Done {A B} (c : M A) (k : A → M B) s a s' :
  c s = (Done a, s') → bind c k s = k a s'.
Proof. intros H. unfold bind. now rewrite H. Qed.

Lemma bind_Panic {A B} (c : M A) (k : A → M B) s p s' :
  c s = (Panic p, s') → bind c k s = (Panic p, s').
Proof. intros H. unfold bind. now rewrite H. Qed.

Lemma bind_OutOfFuel {A B} (c : M A) (k : A → M B) s s' :
  c s = (OutOfFuel, s') → bind c k s = (OutOfFuel, s').
Proof. intros H. unfold bind. now rewrite H. Qed.

Lemma later_0 s : later 0 s = s.
Proof. now destruct s. Qed.

Lemma assertT_inject k x s : assertT k (inject k x) s = (Done x, s).
Proof. now destruct k. Qed.

Lemma assertT_cases k v s :
  (∃ x, v = inject k x ∧ assertT k v s = (Done x, s)) ∨
  ((∀ x, v ≠ inject k x) ∧ assertT k v s = (Panic TypeAssertion, s)).
Proof.
  destruct k, v; simpl;
    first [ left; eexists; split; reflexivity
          | right; split; [intros x; discriminate | reflexivity] ].
Qed.

(** ** The identity cache and the refresh *)

Section Cache.

Context (env : Env).

Lemma isStale_run i s :
  isStale env i s
  = (Done (Z.ltb (fetchedAt i + identityRefreshRate) (now_at env (tick s))),
     later 1 s).
Proof. reflexivity. Qed.

(** The sweep only reads the clock and only removes entries. *)
Lemma sweep_run entries : ∀ ids s,
  ∃ ids', sweep env entries ids s = (Done ids', later (length entries) s)
          ∧ ids' ⊆ ids.
Proof.
  induction entries as [|[identifier i] rest IH]; intros ids s.
  - exists ids. simpl. now rewrite later_0.
  - simpl sweep. rewrite (bind_Done _ _ _ _ _ (isStale_run i s)).
    destruct (IH (if Z.ltb (fetchedAt i + identityRefreshRate)
                         (now_at env (tick s))
                  then delete identifier ids else ids) (later 1 s))
      as (ids' & Hrun & Hsub).
    exists ids'. split.
    + rewrite Hrun. f_equal. unfold later. simpl. f_equal. lia.
    + etrans; [exact Hsub|].
      destruct (Z.ltb _ _); [apply delete_subseteq | reflexivity].
Qed.

Lemma refreshState_skip s :
  now_at env (tick s) < lastRefresh (cl s) + stateRefreshRate →
  refreshState env s = (Done None, later 1 s).
Proof.
  intros H. unfold refreshState, bind, timeNow, get. simpl.
  apply Z.ltb_lt in H. now rewrite H.
Qed.

Lemma refreshState_fail s err :
  lastRefresh (cl s) + stateRefreshRate ≤ now_at env (tick s) →
  initialize_at env (S (tick s)) = Failed err →
  refreshState env s
  = (Done (Some err),
     {| cl := cl s; tick := 2 + tick s; calls := calls s ++ [ReqInitialize] |}).
Proof.
  intros H Hcall.
  unfold refreshState, bind, timeNow, get, callInitialize, call.
  simpl. apply Z.ltb_ge in H. rewrite H. simpl. rewrite Hcall. reflexivity.
Qed.

Lemma refreshState_no_response s :
  lastRefresh (cl s) + stateRefreshRate ≤ now_at env (tick s) →
  initialize_at env (S (tick s)) = NoResponse →
  refreshState env s
  = (Panic NilDereference,
     {| cl := cl s; tick := 2 + tick s; calls := calls s ++ [ReqInitialize] |}).
Proof.
  intros H Hcall.
  unfold refreshState, bind, timeNow, get, callInitialize, call.
  simpl. apply Z.ltb_ge in H. rewrite H. simpl. rewrite Hcall. reflexivity.
Qed.

(** The two loops over arrays without a nil element build the indexes. *)
Lemma fillFlags_objects (fs : list flag) (a b : gmap string flag) s :
  fillFlags (Some <$> fs) a b s
  = (Done (foldl (fun m f => <[flag_Key f := f]> m) a fs,
           foldl (fun m f => <[flag_ID f := f]> m) b fs), s).
Proof.
  revert a b. induction fs as [|f fs IH]; intros a b; simpl; [reflexivity|].
  apply IH.
Qed.

Lemma fillOverrides_objects (os : list override) (a : gmap string override) s :
  fillOverrides (Some <$> os) a s
  = (Done (foldl (fun m o => <[override_Key o := o]> m) a os), s).
Proof.
  revert a. induction os as [|o os IH]; intros a; simpl; [reflexivity|].
  apply IH.
Qed.

(** They panic at a nil element, whatever comes before and after it. *)
Lemma fillFlags_null (l : list (option flag)) (a b : gmap string flag) s :
  None ∈ l → fillFlags l a b s = (Panic NilDereference, s).
Proof.
  revert a b. induction l as [|[f|] l IH]; intros a b H; simpl.
  - now apply elem_of_nil in H.
  - apply IH. apply elem_of_cons in H as [H|H]; [discriminate | exact H].
  - reflexivity.
Qed.

Lemma fillOverrides_null (l : list (option override))
  (a : gmap string override) s :
  None ∈ l → fillOverrides l a s = (Panic NilDereference, s).
Proof.
  revert a. induction l as [|[o|] l IH]; intros a H; simpl.
  - now apply elem_of_nil in H.
  - apply IH. apply elem_of_cons in H as [H|H]; [discriminate | exact H].
  - reflexivity.
Qed.

(** An array either holds objects only or has a nil element. *)
Lemma objects_or_null {A} (l : list (option A)) :
  (∃ xs, l = Some <$> xs) ∨ None ∈ l.
Proof.
  induction l as [|[x|] l [[xs ->]|IH]].
  - left. now exists [].
  - left. now exists (x :: xs).
  - right. now apply list_elem_of_further.
  - right. apply list_elem_of_here.
  - right. apply list_elem_of_here.
Qed.

Lemma objects_not_null {A} (xs : list A) : None ∉ (Some <$> xs).
Proof.
  intros H. apply list_elem_of_fmap in H as (x & Hx & _). discriminate.
Qed.

Lemma refreshState_swap s resp fs os :
  lastRefresh (cl s) + stateRefreshRate ≤ now_at env (tick s) →
  initialize_at env (S (tick s)) = Decoded resp →
  resp_Flags resp = Some <$> fs →
  resp_Overrides resp = Some <$> os →
  ∃ ids, ids ⊆ identities (cl s) ∧
  refreshState env s
  = (Done None,
     {| cl := {| flags := indexFlagsByKey fs;
                 flagsByID := indexFlagsByID fs;
                 overrides := indexOverrides os;
                 identities := ids;
                 lastRefresh := now_at env (tick s) |};
        tick := length (map_to_list (identities (cl s))) + (2 + tick s);
        calls := calls s ++ [ReqInitialize] |}).
Proof.
  intros H Hcall Hfs Hos.
  unfold refreshState, bind, timeNow, get, callInitialize, call, setSnapshot,
    setIdentities, setLastRefresh, setClient, ret.
  simpl. apply Z.ltb_ge in H. rewrite H. simpl. rewrite Hcall. simpl.
  rewrite Hfs, fillFlags_objects, Hos, fillOverrides_objects. simpl.
  match goal with |- context [sweep env ?l ?m ?st] =>
    destruct (sweep_run l m st) as (ids & Hrun & Hsub); rewrite Hrun end.
  exists ids. split; [exact Hsub | reflexivity].
Qed.

(** A nil element stops the refresh before anything is assigned. *)
Lemma refreshState_null s resp :
  lastRefresh (cl s) + stateRefreshRate ≤ now_at env (tick s) →
  initialize_at env (S (tick s)) = Decoded resp →
  None ∈ resp_Flags resp ∨ None ∈ resp_Overrides resp →
  refreshState env s
  = (Panic NilDereference,
     {| cl := cl s; tick := 2 + tick s; calls := calls s ++ [ReqInitialize] |}).
Proof.
  intros H Hcall Hnull.
  unfold refreshState, bind, timeNow, get, callInitialize, call.
  simpl. apply Z.ltb_ge in H. rewrite H. simpl. rewrite Hcall. simpl.
  destruct (objects_or_null (resp_Flags resp)) as [[fs Hfs]|Hf].
  - destruct Hnull as [Hf|Ho].
    + rewrite Hfs in Hf. now apply objects_not_null in Hf.
    + rewrite Hfs, fillFlags_objects. now rewrite fillOverrides_null.
  - now rewrite fillFlags_null.
Qed.

(** The four ways a refresh that is due can end. *)
Lemma refreshState_due_cases s :
  lastRefresh (cl s) + stateRefreshRate ≤ now_at env (tick s) →
  (∃ resp fs os, initialize_at env (S (tick s)) = Decoded resp ∧
     resp_Flags resp = Some <$> fs ∧ resp_Overrides resp = Some <$> os) ∨
  (∃ resp, initialize_at env (S (tick s)) = Decoded resp ∧
     (None ∈ resp_Flags resp ∨ None ∈ resp_Overrides resp)) ∨
  (∃ err, initialize_at env (S (tick s)) = Failed err) ∨
  initialize_at env (S (tick s)) = NoResponse.
Proof.
  intros _. destruct (initialize_at env (S (tick s))) as [resp|err|].
  - destruct (objects_or_null (resp_Flags resp)) as [[fs Hfs]|Hf].
    + destruct (objects_or_null (resp_Overrides resp)) as [[os Hos]|Ho].
      * left. now exists resp, fs, os.
      * right; left. exists resp. auto.
    + right; left. exists resp. auto.
  - right; right; left. now exists err.
  - right; right; right. reflexivity.
Qed.

(** A refresh that is due sends exactly one request, however it ends. *)
Lemma refreshState_due_calls s :
  lastRefresh (cl s) + stateRefreshRate ≤ now_at env (tick s) →
  calls (snd (refreshState env s)) = calls s ++ [ReqInitialize].
Proof.
  intros H.
  destruct (refreshState_due_cases s H)
    as [(resp & fs & os & E & Hfs & Hos)|[(resp & E & Hnull)|[[err E]|E]]].
  - destruct (refreshState_swap s resp fs os H E Hfs Hos) as (ids & _ & ->).
    reflexivity.
  - now rewrite (refreshState_null s resp H E Hnull).
  - now rewrite (refreshState_fail s err H E).
  - now rewrite (refreshState_no_response s H E).
Qed.

Lemma fetchIdentityRemote_fail identifier s err :
  identity_at env (tick s) identifier = Failed err →
  fetchIdentityRemote env identifier s
  = (Done (None, Some err),
     {| cl := cl s; tick := 1 + tick s;
        calls := calls s ++ [ReqIdentity identifier] |}).
Proof.
  intros H. unfold fetchIdentityRemote, bind, callIdentity, call. simpl.
  now rewrite H.
Qed.

Lemma fetchIdentityRemote_ok identifier s decoded :
  identity_at env (tick s) identifier = Decoded decoded →
  fetchIdentityRemote env identifier s
  = (Done (Some (stamp decoded (now_at env (S (tick s)))), None),
     {| cl := withIdentities (cl s)
                (<[identity_Identifier decoded :=
                     stamp decoded (now_at env (S (tick s)))]>
                   (identities (cl s)));
        tick := 2 + tick s;
        calls := calls s ++ [ReqIdentity identifier] |}).
Proof.
  intros H. unfold fetchIdentityRemote, bind, callIdentity, call. simpl.
  now rewrite H.
Qed.

Lemma fetchIdentityRemote_no_response identifier s :
  identity_at env (tick s) identifier = NoResponse →
  fetchIdentityRemote env identifier s
  = (Panic NilDereference,
     {| cl := cl s; tick := 1 + tick s;
        calls := calls s ++ [ReqIdentity identifier] |}).
Proof.
  intros H. unfold fetchIdentityRemote, bind, callIdentity, call. simpl.
  now rewrite H.
Qed.

(** However it ends, the remote fetch sends exactly one request. *)
Lemma fetchIdentityRemote_calls identifier s :
  calls (snd (fetchIdentityRemote env identifier s))
  = calls s ++ [ReqIdentity identifier].
Proof.
  destruct (identity_at env (tick s) identifier) as [d|err|] eqn:E.
  - now rewrite (fetchIdentityRemote_ok _ _ _ E).
  - now rewrite (fetchIdentityRemote_fail _ _ _ E).
  - now rewrite (fetchIdentityRemote_no_response _ _ E).
Qed.

Lemma fetchIdentity_absent identifier s :
  identities (cl s) !! identifier = None →
  fetchIdentity env identifier s = fetchIdentityRemote env identifier s.
Proof. intros H. unfold fetchIdentity, bind, get. now rewrite H. Qed.

Lemma fetchIdentity_cached identifier s i :
  identities (cl s) !! identifier = Some i →
  now_at env (tick s) ≤ fetchedAt i + identityRefreshRate →
  fetchIdentity env identifier s = (Done (Some i, None), later 1 s).
Proof.
  intros H Hfresh. unfold fetchIdentity, bind, get. rewrite H.
  rewrite isStale_run. apply Z.ltb_ge in Hfresh. now rewrite Hfresh.
Qed.

Lemma fetchIdentity_stale identifier s i :
  identities (cl s) !! identifier = Some i →
  fetchedAt i + identityRefreshRate < now_at env (tick s) →
  fetchIdentity env identifier s
  = fetchIdentityRemote env identifier (later 1 s).
Proof.
  intros H Hstale. unfold fetchIdentity, bind, get. rewrite H.
  rewrite isStale_run. apply Z.ltb_lt in Hstale. now rewrite Hstale.
Qed.

End Cache.

(** ** The refresh gate and the identity window *)

(** C8: a refresh at time [t] after a refresh at [t0] does nothing when
    [t < t0 + 60s] (no request is sent, the client is unchanged); when
    [t >= t0 + 60s] it sends the request and then ends in one of four ways.
    When the body is decoded and its arrays hold objects only, it installs
    the indexes built from them, drops entries from the identity cache, sets
    [lastRefresh] to [t] and returns no error. When the decoded body has a
    [null] element among its flags or overrides, it panics before anything
    is assigned. When the request fails it returns the error, and when there
    is no response it panics; in these three endings the client, and with it
    [lastRefresh], is as before. *)
Theorem refreshState_gate (env : Env) (s : state) :
  (now_at env (tick s) < lastRefresh (cl s) + 60 * second →
     refreshState env s = (Done None, later 1 s)) ∧
  (lastRefresh (cl s) + 60 * second ≤ now_at env (tick s) →
     calls (snd (refreshState env s)) = calls s ++ [ReqInitialize] ∧
     (∀ resp fs os,
        initialize_at env (S (tick s)) = Decoded resp →
        resp_Flags resp = Some <$> fs →
        resp_Overrides resp = Some <$> os →
        ∃ s', refreshState env s = (Done None, s') ∧
          flags (cl s') = indexFlagsByKey fs ∧
          flagsByID (cl s') = indexFlagsByID fs ∧
          overrides (cl s') = indexOverrides os ∧
          identities (cl s') ⊆ identities (cl s) ∧
          lastRefresh (cl s') = now_at env (tick s)) ∧
     (∀ resp,
        initialize_at env (S (tick s)) = Decoded resp →
        None ∈ resp_Flags resp ∨ None ∈ resp_Overrides resp →
        ∃ s', refreshState env s = (Panic NilDereference, s') ∧
          cl s' = cl s) ∧
     (∀ err,
        initialize_at env (S (tick s)) = Failed err →
        ∃ s', refreshState env s = (Done (Some err), s') ∧ cl s' = cl s) ∧
     (initialize_at env (S (tick s)) = NoResponse →
        ∃ s', refreshState env s = (Panic NilDereference, s') ∧
          cl s' = cl s)).
Proof.
  split; intros H.
  - now apply refreshState_skip.
  - split; [now apply refreshState_due_calls|]. repeat split.
    + intros resp fs os E Hfs Hos.
      destruct (refreshState_swap env s resp fs os H E Hfs Hos)
        as (ids & Hsub & ->).
      eexists. split; [reflexivity|]. simpl. tauto.
    + intros resp E Hnull. rewrite (refreshState_null env s resp H E Hnull).
      eexists. split; reflexivity.
    + intros err E. rewrite (refreshState_fail env s err H E).
      eexists. split; reflexivity.
    + intros E. rewrite (refreshState_no_response env s H E).
      eexists. split; reflexivity.
Qed.

Lemma refreshState_gate_witness :
  refreshState Sample.world (Sample.fresh ∅ 3)
    = (Done None, later 1 (Sample.fresh ∅ 3)) ∧
  calls (snd (refreshState Sample.world (Sample.due 0))) = [ReqInitialize] ∧
  (∃ s', refreshState Sample.world (Sample.due 0) = (Done None, s') ∧
     flags (cl s')
       = indexFlagsByKey [Sample.isBeta; Sample.tier; Sample.planLimit] ∧
     lastRefresh (cl s') = 0) ∧
  (∃ s', refreshState Sample.holed (Sample.due 0)
         = (Panic NilDereference, s') ∧
     cl s' = cl (Sample.due 0)) ∧
  (∃ s', refreshState Sample.failing (Sample.due 0)
         = (Done (Some Sample.unavailable), s') ∧
     cl s' = cl (Sample.due 0)).
Proof.
  split.
  - apply (proj1 (refreshState_gate Sample.world (Sample.fresh ∅ 3))).
    now vm_compute.
  - destruct (proj2 (refreshState_gate Sample.world (Sample.due 0)))
      as (Hcalls & Hswap & _).
    + now vm_compute.
    + split; [exact Hcalls|]. split; [|split].
      * destruct (Hswap Sample.snapshot _ [] eq_refl eq_refl eq_refl)
          as (s' & Hrun & Hflags & _ & _ & _ & Hlast).
        exists s'. auto.
      * destruct (proj2 (refreshState_gate Sample.holed (Sample.due 0)))
          as (_ & _ & Hnull & _).
        -- now vm_compute.
        -- apply (Hnull _ eq_refl). left.
           apply list_elem_of_further, list_elem_of_here.
      * destruct (proj2 (refreshState_gate Sample.failing (Sample.due 0)))
          as (_ & _ & _ & Hfail & _).
        -- now vm_compute.
        -- now apply Hfail.
Defined.

(** C4: when a refresh is attempted and the request does not succeed, the
    client is left as it was, field by field, so that an evaluation started
    from the client after the attempt is the evaluation started from the
    client before it; the error of the request, when it returns one, is
    what [refreshState] returns. *)
Theorem refreshState_failure_keeps_client (env : Env) (s : state) :
  lastRefresh (cl s) + stateRefreshRate ≤ now_at env (tick s) →
  (∀ resp, initialize_at env (S (tick s)) ≠ Decoded resp) →
  let s' := snd (refreshState env s) in
  flags (cl s') = flags (cl s) ∧
  flagsByID (cl s') = flagsByID (cl s) ∧
  overrides (cl s') = overrides (cl s) ∧
  identities (cl s') = identities (cl s) ∧
  lastRefresh (cl s') = lastRefresh (cl s) ∧
  (∀ err, initialize_at env (S (tick s)) = Failed err →
     fst (refreshState env s) = Done (Some err)) ∧
  (∀ env' k fuel opts n log,
     entry env' k fuel opts {| cl := cl s'; tick := n; calls := log |}
     = entry env' k fuel opts {| cl := cl s; tick := n; calls := log |}).
Proof.
  intros H Hfail s'.
  assert (cl s' = cl s) as Hcl.
  { subst s'. destruct (initialize_at env (S (tick s))) as [resp|err|] eqn:E.
    - now destruct (Hfail resp).
    - now rewrite (refreshState_fail env s err H E).
    - now rewrite (refreshState_no_response env s H E). }
  rewrite Hcl. repeat split.
  intros err E. now rewrite (refreshState_fail env s err H E).
Qed.

Lemma refreshState_failure_keeps_client_witness :
  let s' := snd (refreshState Sample.failing (Sample.due 0)) in
  fst (refreshState Sample.failing (Sample.due 0))
    = Done (Some Sample.unavailable) ∧
  flags (cl s') = flags (cl (Sample.due 0)) ∧
  lastRefresh (cl s') = -61 * second.
Proof.
  destruct (refreshState_failure_keeps_client Sample.failing (Sample.due 0))
    as (Hflags & _ & _ & _ & Hlast & Herr & _).
  - now vm_compute.
  - intros resp. discriminate.
  - intros s'. split; [now apply Herr|]. split; [exact Hflags|exact Hlast].
Defined.

(** C7, as the code has it: an entry stamped [t0] is returned without a
    request at every time [t <= t0 + 5s], the end of the window included;
    at [t > t0 + 5s] one request is sent, and its answer, when there is
    one, is stamped with a new clock reading and stored under the
    [Identifier] it carries, while an error is returned with the cache
    left as it was. *)
Theorem fetchIdentity_window (env : Env) (s : state) (identifier : string)
  (i : identity) :
  identities (cl s) !! identifier = Some i →
  (now_at env (tick s) ≤ fetchedAt i + 5 * second →
     fetchIdentity env identifier s = (Done (Some i, None), later 1 s)) ∧
  (fetchedAt i + 5 * second < now_at env (tick s) →
     calls (snd (fetchIdentity env identifier s))
       = calls s ++ [ReqIdentity identifier] ∧
     (∀ decoded, identity_at env (S (tick s)) identifier = Decoded decoded →
        let stamped := stamp decoded (now_at env (2 + tick s)) in
        ∃ s', fetchIdentity env identifier s = (Done (Some stamped, None), s') ∧
          cl s' = withIdentities (cl s)
                    (<[identity_Identifier decoded := stamped]>
                       (identities (cl s)))) ∧
     (∀ err, identity_at env (S (tick s)) identifier = Failed err →
        ∃ s', fetchIdentity env identifier s = (Done (None, Some err), s') ∧
          cl s' = cl s)).
Proof.
  intros Hin. split; intros H.
  - now apply fetchIdentity_cached.
  - rewrite (fetchIdentity_stale env _ _ _ Hin H). repeat split.
    + now rewrite fetchIdentityRemote_calls.
    + intros d E.
      rewrite (fetchIdentityRemote_ok env identifier (later 1 s) d E).
      eexists. split; reflexivity.
    + intros err E.
      rewrite (fetchIdentityRemote_fail env identifier (later 1 s) err E).
      eexists. split; reflexivity.
Qed.

Lemma fetchIdentity_window_witness :
  let i := Sample.user "u" ∅ 0 in
  let ids : gmap string identity := {[ "u" := i ]} in
  fetchIdentity Sample.world "u" (Sample.fresh ids 5)
    = (Done (Some i, None), later 1 (Sample.fresh ids 5)) ∧
  calls (snd (fetchIdentity Sample.world "u" (Sample.fresh ids 6)))
    = [ReqIdentity "u"] ∧
  ∃ s', fetchIdentity Sample.world "u" (Sample.fresh ids 6)
        = (Done (Some (Sample.user "u" ∅ (8 * second)), None), s').
Proof.
  intros i ids. split.
  - apply (proj1 (fetchIdentity_window Sample.world (Sample.fresh ids 5)
                    "u" i eq_refl)).
    now vm_compute.
  - destruct (proj2 (fetchIdentity_window Sample.world (Sample.fresh ids 6)
                       "u" i eq_refl))
      as (Hcalls & Hok & _).
    + now vm_compute.
    + split; [exact Hcalls|].
      destruct (Hok (Sample.user "u" ∅ 0) eq_refl) as (s' & Hrun & _).
      exists s'. exact Hrun.
Defined.

(** C7 as stated fails at the end of the window: with an entry stamped at
    0s and the clock at exactly 5s, the entry is returned and no request is
    sent. *)
Lemma fetchIdentity_cached_at_window_end :
  let i := Sample.user "u" ∅ 0 in
  let s := Sample.fresh {[ "u" := i ]} 5 in
  identities (cl s) !! "u" = Some i ∧
  fetchedAt i + 5 * second ≤ now_at Sample.world (tick s) ∧
  fetchIdentity Sample.world "u" s = (Done (Some i, None), later 1 s) ∧
  calls (snd (fetchIdentity Sample.world "u" s)) ≠ calls s ++ [ReqIdentity "u"].
Proof.
  intros i s. repeat split; try (now vm_compute).
Qed.

(** C10: after a miss and a successful request the answer is stored under
    the [Identifier] field it carries. When that field is the requested
    identifier, the next call within the window is served from the cache;
    when it is another one, the cache still has for the requested
    identifier what it had before, and the next call sends a request
    again. *)
Theorem fetchIdentity_stores_under_response_identifier (env : Env)
  (s s1 : state) (identifier : string) (decoded : identity) :
  cacheMiss env identifier s s1 →
  identity_at env (tick s1) identifier = Decoded decoded →
  let stamped := stamp decoded (now_at env (S (tick s1))) in
  ∃ s', fetchIdentity env identifier s = (Done (Some stamped, None), s') ∧
    identities (cl s')
      = <[identity_Identifier decoded := stamped]> (identities (cl s)) ∧
    (identity_Identifier decoded = identifier →
       now_at env (tick s') ≤ fetchedAt stamped + identityRefreshRate →
       fetchIdentity env identifier s'
         = (Done (Some stamped, None), later 1 s')) ∧
    (identity_Identifier decoded ≠ identifier →
       identities (cl s') !! identifier = identities (cl s) !! identifier ∧
       (now_at env (tick s) ≤ now_at env (tick s') →
          calls (snd (fetchIdentity env identifier s'))
            = calls s' ++ [ReqIdentity identifier])).
Proof.
  intros Hmiss Hcall stamped.
  assert (fetchIdentity env identifier s = fetchIdentityRemote env identifier s1)
    as Hstart.
  { unfold cacheMiss in Hmiss.
    destruct (identities (cl s) !! identifier) as [i|] eqn:E.
    - destruct Hmiss as [Hstale ->]. now apply fetchIdentity_stale with i.
    - subst s1. now apply fetchIdentity_absent. }
  assert (cl s1 = cl s) as Hcl.
  { unfold cacheMiss in Hmiss.
    destruct (identities (cl s) !! identifier); [destruct Hmiss as [_ ->]|subst];
      reflexivity. }
  rewrite Hstart, (fetchIdentityRemote_ok env identifier s1 decoded Hcall).
  eexists. split; [reflexivity|]. simpl. rewrite Hcl.
  split; [reflexivity|]. split.
  - intros Heq Hfresh. apply fetchIdentity_cached; [|exact Hfresh].
    simpl. rewrite Heq. apply lookup_insert_eq.
  - intros Hne. split; [now apply lookup_insert_ne|].
    intros Hclock.
    match goal with |- context [fetchIdentity env identifier ?st] =>
      set (s' := st) in * end.
    assert (identities (cl s') !! identifier = identities (cl s) !! identifier)
      as Hsame.
    { subst s'. simpl. now apply lookup_insert_ne. }
    unfold cacheMiss in Hmiss.
    destruct (identities (cl s) !! identifier) as [i|] eqn:E.
    + destruct Hmiss as [Hstale _].
      rewrite (fetchIdentity_stale env identifier s' i Hsame);
        [|subst s'; simpl; lia].
      now rewrite fetchIdentityRemote_calls.
    + rewrite (fetchIdentity_absent env identifier s' Hsame).
      now rewrite fetchIdentityRemote_calls.
Qed.

Lemma fetchIdentity_stores_under_response_identifier_witness :
  let answer (id : string) : identity := Sample.user "canonical" ∅ 0 in
  let env := {| now_at := Sample.clock;
                initialize_at := fun _ => Decoded Sample.snapshot;
                identity_at := fun _ id => Decoded (answer id) |} in
  let s := Sample.fresh ∅ 1 in
  ∃ s', fetchIdentity env "alias" s
        = (Done (Some (Sample.user "canonical" ∅ (2 * second)), None), s') ∧
    identities (cl s') !! "alias" = None ∧
    calls (snd (fetchIdentity env "alias" s'))
      = [ReqIdentity "alias"; ReqIdentity "alias"].
Proof.
  intros answer env s.
  destruct (fetchIdentity_stores_under_response_identifier env s s "alias"
              (answer "alias"))
    as (s' & Hrun & Hids & _ & Hother).
  - reflexivity.
  - reflexivity.
  - destruct Hother as [Hsame Hnext]; [discriminate|].
    exists s'. split; [exact Hrun|]. split; [now rewrite Hsame|].
    assert (s' = snd (fetchIdentity env "alias" s)) as Hs' by now rewrite Hrun.
    rewrite Hnext; subst s'; now vm_compute.
Defined.

(** ** The evaluation engine *)

Lemma bind_get {B} (k : state → M B) s : bind get k s = k s s.
Proof. reflexivity. Qed.

Lemma bind_ret {A B} (a : A) (k : A → M B) s : bind (ret a) k s = k a s.
Proof. reflexivity. Qed.

Section Evaluation.

Context (env : Env).

(** The three entry points are the instances of [evaluate]. *)
Lemma entry_S k fuel opts :
  entry env k (S fuel) opts = evaluate env k fuel opts.
Proof. destruct k; reflexivity. Qed.

Lemma entry_O k opts s : entry env k 0 opts s = (OutOfFuel, s).
Proof. destruct k; reflexivity. Qed.

Lemma typeName_eqb k : String.eqb (typeName k) (typeName k) = true.
Proof. apply String.eqb_refl. Qed.

(** *** The steps before the rules *)

Lemma evaluate_found k fuel opts s r0 s1 f :
  refreshState env s = (Done r0, s1) →
  flags (cl s1) !! Key opts = Some f →
  flag_Type f = typeName k →
  evaluate env k fuel opts s
  = (if negb (String.eqb (Identifier opts) EmptyString) then
       let* r := fetchIdentity env (Identifier opts) in
       match r with
       | (_, Some err) => ret (onIdentityError k err)
       | (None, None) => panic NilDereference
       | (Some i, None) =>
           match identity_Overrides i !! Key opts with
           | Some val =>
               let* x := assertT k val in
               ret (x, None)
           | None => afterIdentity env k fuel opts f
           end
       end
     else afterIdentity env k fuel opts f) s1.
Proof.
  intros Hrefresh Hflag Htype. unfold evaluate.
  rewrite (bind_Done _ _ _ _ _ Hrefresh), bind_get, Hflag, Htype.
  now rewrite typeName_eqb.
Qed.

Lemma evaluate_identity_error k fuel opts s r0 s1 f io err s2 :
  Identifier opts ≠ EmptyString →
  refreshState env s = (Done r0, s1) →
  flags (cl s1) !! Key opts = Some f →
  flag_Type f = typeName k →
  fetchIdentity env (Identifier opts) s1 = (Done (io, Some err), s2) →
  evaluate env k fuel opts s = (Done (onIdentityError k err), s2).
Proof.
  intros Hid Hrefresh Hflag Htype Hfetch.
  rewrite (evaluate_found _ _ _ _ _ _ _ Hrefresh Hflag Htype).
  apply String.eqb_neq in Hid. rewrite Hid. cbn [negb].
  rewrite (bind_Done _ _ _ _ _ Hfetch). now destruct io.
Qed.

Lemma evaluate_identity_override k fuel opts s r0 s1 f i s2 val :
  Identifier opts ≠ EmptyString →
  refreshState env s = (Done r0, s1) →
  flags (cl s1) !! Key opts = Some f →
  flag_Type f = typeName k →
  fetchIdentity env (Identifier opts) s1 = (Done (Some i, None), s2) →
  identity_Overrides i !! Key opts = Some val →
  evaluate env k fuel opts s
  = (let* x := assertT k val in ret (x, None)) s2.
Proof.
  intros Hid Hrefresh Hflag Htype Hfetch Hov.
  rewrite (evaluate_found _ _ _ _ _ _ _ Hrefresh Hflag Htype).
  apply String.eqb_neq in Hid. rewrite Hid. cbn [negb].
  now rewrite (bind_Done _ _ _ _ _ Hfetch), Hov.
Qed.

(** With a fetched identity that has no override for the key, or with no
    identifier at all, the entry point goes on to the global override. *)
Lemma evaluate_after_identity k fuel opts s r0 s1 f s2 :
  refreshState env s = (Done r0, s1) →
  flags (cl s1) !! Key opts = Some f →
  flag_Type f = typeName k →
  (Identifier opts = EmptyString ∧ s2 = s1) ∨
  (Identifier opts ≠ EmptyString ∧
   ∃ i, fetchIdentity env (Identifier opts) s1 = (Done (Some i, None), s2) ∧
        identity_Overrides i !! Key opts = None) →
  evaluate env k fuel opts s = afterIdentity env k fuel opts f s2.
Proof.
  intros Hrefresh Hflag Htype Hid.
  rewrite (evaluate_found _ _ _ _ _ _ _ Hrefresh Hflag Htype).
  destruct Hid as [[Hid ->] | (Hid & i & Hfetch & Hov)].
  - now rewrite Hid.
  - apply String.eqb_neq in Hid. rewrite Hid. cbn [negb].
    now rewrite (bind_Done _ _ _ _ _ Hfetch), Hov.
Qed.

Lemma afterIdentity_override k fuel opts f s o :
  overrides (cl s) !! Key opts = Some o →
  afterIdentity env k fuel opts f s
  = (let* x := assertT k (override_Value o) in ret (x, None)) s.
Proof. intros H. unfold afterIdentity. now rewrite bind_get, H. Qed.

Lemma afterIdentity_rules k fuel opts f s :
  overrides (cl s) !! Key opts = None →
  afterIdentity env k fuel opts f s
  = (let* r := rulesAt env k fuel (Identifier opts) (flag_DynamicRules f) in
     match r with
     | Some res => ret res
     | None => let* x := assertT k (flag_Value f) in ret (x, None)
     end) s.
Proof. intros H. unfold afterIdentity. now rewrite bind_get, H. Qed.

Lemma entry_reaches_rules k fuel opts s f s2 :
  reachesRules env k opts s f s2 →
  entry env k (S fuel) opts s
  = (let* r := rulesAt env k fuel (Identifier opts) (flag_DynamicRules f) in
     match r with
     | Some res => ret res
     | None => let* x := assertT k (flag_Value f) in ret (x, None)
     end) s2.
Proof.
  intros (r0 & s1 & Hrefresh & Hflag & Htype & Hid & Hov).
  rewrite entry_S,
    (evaluate_after_identity _ _ _ _ _ _ _ _ Hrefresh Hflag Htype Hid).
  now apply afterIdentity_rules.
Qed.

(** *** One rule *)

Lemma evalAt_absent fuel identifier rule s :
  flagsByID (cl s) !! expr_FlagID (rule_Expression rule) = None →
  evalAt env fuel identifier rule s = (Panic NilDereference, s).
Proof.
  intros H. unfold evalAt, evalExpression. now rewrite bind_get, H.
Qed.

Lemma evalAt_found fuel identifier rule s ef k' :
  flagsByID (cl s) !! expr_FlagID (rule_Expression rule) = Some ef →
  flag_Type ef = typeName k' →
  evalAt env fuel identifier rule s
  = (let* r := entry env k' fuel
                 {| Key := flag_Key ef; Identifier := identifier |} in
     match r with
     | (_, Some err) => ret (Abort err)
     | (y, None) =>
         let* v := assertT k' (expr_Value (rule_Expression rule)) in
         let* c := compare k' (expr_Op (rule_Expression rule)) y v in
         ret (verdictOf c)
     end) s.
Proof.
  intros H Htype. unfold evalAt, evalExpression.
  rewrite bind_get, H, Htype. destruct k'; reflexivity.
Qed.

(** *** The loop *)

Lemma rulesAt_allMiss k fuel identifier pre rest s s' :
  allMiss (evalAt env fuel identifier) pre s s' →
  rulesAt env k fuel identifier (pre ++ rest) s
  = rulesAt env k fuel identifier rest s'.
Proof.
  induction 1 as [|rule pre s s1 s2 Hmiss _ IH]; [reflexivity|].
  rewrite <- IH. simpl app. unfold rulesAt at 1. simpl forRules.
  fold (evalAt env fuel). now rewrite (bind_Done _ _ _ _ _ Hmiss).
Qed.

Lemma rulesAt_nil k fuel identifier s :
  rulesAt env k fuel identifier [] s = (Done None, s).
Proof. reflexivity. Qed.

Lemma rulesAt_hit k fuel identifier rule post s s' :
  evalAt env fuel identifier rule s = (Done Hit, s') →
  rulesAt env k fuel identifier (rule :: post) s
  = (let* x := assertT k (rule_Value rule) in ret (Some (x, None))) s'.
Proof.
  intros H. unfold rulesAt. simpl forRules. fold (evalAt env fuel).
  now rewrite (bind_Done _ _ _ _ _ H).
Qed.

Lemma rulesAt_abort k fuel identifier rule post s s' err :
  evalAt env fuel identifier rule s = (Done (Abort err), s') →
  rulesAt env k fuel identifier (rule :: post) s
  = (Done (Some (zero k, Some err)), s').
Proof.
  intros H. unfold rulesAt. simpl forRules. fold (evalAt env fuel).
  now rewrite (bind_Done _ _ _ _ _ H).
Qed.

Lemma rulesAt_panic k fuel identifier rule post s s' p :
  evalAt env fuel identifier rule s = (Panic p, s') →
  rulesAt env k fuel identifier (rule :: post) s = (Panic p, s').
Proof.
  intros H. unfold rulesAt. simpl forRules. fold (evalAt env fuel).
  now rewrite (bind_Panic _ _ _ _ _ H).
Qed.

End Evaluation.

(** ** From the loop to the entry points *)

Section Entry.

Context (env : Env).

Lemma allMiss_app eval pre rest s s' s'' :
  allMiss eval pre s s' → allMiss eval rest s' s'' →
  allMiss eval (pre ++ rest) s s''.
Proof.
  induction 1 as [|rule pre s s1 s2 Hmiss _ IH]; intros Hrest; [exact Hrest|].
  simpl. apply (allMiss_cons _ rule _ s s1 s''); [exact Hmiss | now apply IH].
Qed.

Lemma runMisses_sound eval rules : ∀ s s',
  runMisses eval rules s = Some s' → allMiss eval rules s s'.
Proof.
  induction rules as [|rule rest IH]; simpl; intros s s' H.
  - injection H as <-. constructor.
  - destruct (eval rule s) as [[[| |]| |] s1] eqn:E; try discriminate.
    econstructor; eauto.
Qed.

Lemma reachesRules_with_identity k opts s r0 s1 f i s2 :
  Identifier opts ≠ EmptyString →
  refreshState env s = (Done r0, s1) →
  flags (cl s1) !! Key opts = Some f →
  flag_Type f = typeName k →
  fetchIdentity env (Identifier opts) s1 = (Done (Some i, None), s2) →
  identity_Overrides i !! Key opts = None →
  overrides (cl s2) !! Key opts = None →
  reachesRules env k opts s f s2.
Proof.
  intros. exists r0, s1. repeat (split; [assumption|]).
  split; [|assumption]. right. eauto.
Qed.

(** Past a prefix of rules that all miss, the entry point is at the rest
    of the list. *)
Lemma entry_miss_prefix k fuel opts s f s2 pre rest s3 :
  reachesRules env k opts s f s2 →
  flag_DynamicRules f = pre ++ rest →
  allMiss (evalAt env fuel (Identifier opts)) pre s2 s3 →
  entry env k (S fuel) opts s
  = (let* r := rulesAt env k fuel (Identifier opts) rest in
     match r with
     | Some res => ret res
     | None => let* x := assertT k (flag_Value f) in ret (x, None)
     end) s3.
Proof.
  intros Hreach Hrules Hmiss.
  rewrite (entry_reaches_rules env k fuel opts s f s2 Hreach), Hrules.
  unfold bind at 1 3. now rewrite (rulesAt_allMiss env k _ _ _ _ _ _ Hmiss).
Qed.

Lemma entry_rule_hit k fuel opts s f s2 pre rule post s3 s4 :
  reachesRules env k opts s f s2 →
  flag_DynamicRules f = pre ++ rule :: post →
  allMiss (evalAt env fuel (Identifier opts)) pre s2 s3 →
  evalAt env fuel (Identifier opts) rule s3 = (Done Hit, s4) →
  entry env k (S fuel) opts s
  = (let* x := assertT k (rule_Value rule) in ret (x, None)) s4.
Proof.
  intros Hreach Hrules Hmiss Hhit.
  rewrite (entry_miss_prefix k fuel opts s f s2 pre _ s3 Hreach Hrules Hmiss).
  unfold bind at 1. rewrite (rulesAt_hit env k _ _ _ post _ _ Hhit).
  unfold bind. destruct (assertT k (rule_Value rule) s4) as [[x|p|] s5];
    reflexivity.
Qed.

Lemma entry_rule_abort k fuel opts s f s2 pre rule post s3 s4 err :
  reachesRules env k opts s f s2 →
  flag_DynamicRules f = pre ++ rule :: post →
  allMiss (evalAt env fuel (Identifier opts)) pre s2 s3 →
  evalAt env fuel (Identifier opts) rule s3 = (Done (Abort err), s4) →
  entry env k (S fuel) opts s = (Done (zero k, Some err), s4).
Proof.
  intros Hreach Hrules Hmiss Habort.
  rewrite (entry_miss_prefix k fuel opts s f s2 pre _ s3 Hreach Hrules Hmiss).
  unfold bind at 1. now rewrite (rulesAt_abort env k _ _ _ post _ _ _ Habort).
Qed.

Lemma entry_rule_panic k fuel opts s f s2 pre rule post s3 s4 p :
  reachesRules env k opts s f s2 →
  flag_DynamicRules f = pre ++ rule :: post →
  allMiss (evalAt env fuel (Identifier opts)) pre s2 s3 →
  evalAt env fuel (Identifier opts) rule s3 = (Panic p, s4) →
  entry env k (S fuel) opts s = (Panic p, s4).
Proof.
  intros Hreach Hrules Hmiss Hpanic.
  rewrite (entry_miss_prefix k fuel opts s f s2 pre _ s3 Hreach Hrules Hmiss).
  unfold bind at 1. now rewrite (rulesAt_panic env k _ _ _ post _ _ _ Hpanic).
Qed.

Lemma entry_no_rule_hit k fuel opts s f s2 s3 :
  reachesRules env k opts s f s2 →
  allMiss (evalAt env fuel (Identifier opts)) (flag_DynamicRules f) s2 s3 →
  entry env k (S fuel) opts s
  = (let* x := assertT k (flag_Value f) in ret (x, None)) s3.
Proof.
  intros Hreach Hmiss.
  rewrite (entry_miss_prefix k fuel opts s f s2 (flag_DynamicRules f) [] s3
             Hreach (eq_sym (app_nil_r _)) Hmiss).
  reflexivity.
Qed.

(** The comparison of the code is the func of the table. *)
Lemma compare_tableResult k op (y v : T k) b s :
  tableResult k op y v = Some b → compare k op y v s = (Done b, s).
Proof.
  destruct k; simpl; unfold applyOp;
    match goal with |- context [?t !! op] => destruct (t !! op) end;
    simpl; intros H; try discriminate; injection H as <-; reflexivity.
Qed.

(** A rule whose comparison is [b] is a hit when [b] is true and a miss
    when it is false. *)
Lemma comparison_evalAt fuel identifier rule b s s' :
  comparison env fuel identifier rule b s s' →
  evalAt env fuel identifier rule s = (Done (verdictOf b), s').
Proof.
  intros (ef & k' & y & v & Hef & Htype & Hrec & Hv & Hcmp).
  rewrite (evalAt_found env fuel identifier rule s ef k' Hef Htype).
  rewrite (bind_Done _ _ _ _ _ Hrec). cbv beta iota.
  rewrite Hv, (bind_Done _ _ _ _ _ (assertT_inject k' v s')).
  now rewrite (bind_Done _ _ _ _ _ (compare_tableResult k' _ y v b s' Hcmp)).
Qed.

Lemma allFalse_allMiss fuel identifier rules s s' :
  allFalse env fuel identifier rules s s' →
  allMiss (evalAt env fuel identifier) rules s s'.
Proof.
  induction 1 as [|rule rest s s1 s2 Hcmp _ IH]; [constructor|].
  apply (allMiss_cons _ rule rest s s1 s2); [|exact IH].
  exact (comparison_evalAt fuel identifier rule false s s1 Hcmp).
Qed.

(** A comparison either finds no func in the table or returns. *)
Lemma compare_cases k op (y v : T k) s :
  (noOperation k op ∧ compare k op y v s = (Panic NilFuncCall, s)) ∨
  (∃ c, compare k op y v s = (Done c, s)).
Proof.
  destruct k; simpl; unfold applyOp;
    match goal with |- context [?t !! op] => destruct (t !! op) end;
    eauto.
Qed.

End Entry.

(** ** More fuel changes no result

    An outcome other than [OutOfFuel] is the outcome with any larger
    bound on the depth of the calls. *)

Lemma refines_refl {A} (c : M A) : refines c c.
Proof. now intros s o s' H _. Qed.

Lemma refines_trans {A} (c1 c2 c3 : M A) :
  refines c1 c2 → refines c2 c3 → refines c1 c3.
Proof. intros H12 H23 s o s' H Hne. auto. Qed.

Lemma refines_bind {A B} (c c' : M A) (k k' : A → M B) :
  refines c c' → (∀ a, refines (k a) (k' a)) →
  refines (bind c k) (bind c' k').
Proof.
  intros Hc Hk s o s' H Hne. unfold bind in *.
  destruct (c s) as [[a|p|] s1] eqn:E.
  - rewrite (Hc _ _ _ E) by discriminate. now apply Hk.
  - rewrite (Hc _ _ _ E) by discriminate. exact H.
  - injection H as <- <-. now destruct Hne.
Qed.

Section Fuel.

Context (env : Env).

Lemma refines_evalExpression B N S B' N' S' identifier rule :
  (∀ opts, refines (B opts) (B' opts)) →
  (∀ opts, refines (N opts) (N' opts)) →
  (∀ opts, refines (S opts) (S' opts)) →
  refines (evalExpression B N S identifier rule)
          (evalExpression B' N' S' identifier rule).
Proof.
  intros HB HN HS. unfold evalExpression.
  apply refines_bind; [apply refines_refl|]. intros s0.
  destruct (flagsByID (cl s0) !! _) as [ef|]; [|apply refines_refl].
  repeat match goal with
         | |- refines (if ?c then _ else _) _ => destruct c
         | |- refines (bind _ _) (bind _ _) =>
             apply refines_bind; [auto | intros; apply refines_refl]
         end.
  apply refines_refl.
Qed.

Lemma refines_forRules {T} B N S B' N' S' (z : T) assertion identifier rules :
  (∀ opts, refines (B opts) (B' opts)) →
  (∀ opts, refines (N opts) (N' opts)) →
  (∀ opts, refines (S opts) (S' opts)) →
  refines (forRules B N S z assertion identifier rules)
          (forRules B' N' S' z assertion identifier rules).
Proof.
  intros HB HN HS. induction rules as [|rule rest IH]; [apply refines_refl|].
  simpl. apply refines_bind; [now apply refines_evalExpression|].
  intros [err| |]; first [apply refines_refl | exact IH].
Qed.

Lemma entry_fuel_step : ∀ n k opts,
  refines (entry env k n opts) (entry env k (S n) opts).
Proof.
  induction n as [|n IH]; intros k opts.
  - intros s o s' H Hne. rewrite entry_O in H. injection H as <- <-.
    now destruct Hne.
  - rewrite !entry_S. unfold evaluate.
    apply refines_bind; [apply refines_refl|]. intros _.
    apply refines_bind; [apply refines_refl|]. intros s0.
    destruct (flags (cl s0) !! Key opts) as [f|]; [|apply refines_refl].
    destruct (negb (String.eqb (flag_Type f) (typeName k)));
      [apply refines_refl|].
    assert (refines (afterIdentity env k n opts f)
              (afterIdentity env k (S n) opts f)) as Hafter.
    { unfold afterIdentity. apply refines_bind; [apply refines_refl|].
      intros s1.
      destruct (overrides (cl s1) !! Key opts); [apply refines_refl|].
      apply refines_bind; [|intros; apply refines_refl].
      unfold rulesAt. apply refines_forRules; intros o.
      - apply (IH KBool).
      - apply (IH KNumber).
      - apply (IH KString). }
    destruct (negb (String.eqb (Identifier opts) EmptyString));
      [|exact Hafter].
    apply refines_bind; [apply refines_refl|].
    intros [[i|] [err|]]; try apply refines_refl.
    destruct (identity_Overrides i !! Key opts);
      [apply refines_refl | exact Hafter].
Qed.

Lemma entry_stable k n m opts s o s' :
  (n ≤ m)%nat →
  entry env k n opts s = (o, s') →
  o ≠ OutOfFuel →
  entry env k m opts s = (o, s').
Proof.
  induction 1 as [|m _ IH]; [auto|].
  intros H Hne. apply entry_fuel_step; auto.
Qed.

Lemma entryFrom_intro k n opts s o s' :
  entry env k n opts s = (o, s') →
  o ≠ OutOfFuel →
  entryFrom env k n opts s (o, s').
Proof. intros H Hne m Hm. now apply (entry_stable k n m). Qed.

Lemma entryFrom_at k n opts s r :
  entryFrom env k n opts s r → entry env k n opts s = r.
Proof. intros H. now apply H. Qed.

End Fuel.

(** In a goal about one entry point at a given depth, go to the statement
    for that depth and every larger one. *)
Ltac at_depth k :=
  match goal with
  | |- ?f ?env ?n ?opts ?s = ?r => apply (entryFrom_at env k n opts s r)
  end.

(** ** The precedence chain *)

(** C1: for each entry point, a key whose flag has the entry point's type
    and a non-empty identifier whose fetch succeeds, the value returned is
    the identity's override when there is one; else the global override
    when there is one; else the value of the first rule that matches; else
    the default value of the flag. With an override the call ends in the
    state the identity fetch left: nothing further is evaluated. *)
Theorem precedence_chain (env : Env) (k : kind) (fuel : nat)
  (opts : FlagOptions) (s s1 s2 : state) (r0 : option error) (f : flag)
  (i : identity) :
  Identifier opts ≠ EmptyString →
  refreshState env s = (Done r0, s1) →
  flags (cl s1) !! Key opts = Some f →
  flag_Type f = typeName k →
  fetchIdentity env (Identifier opts) s1 = (Done (Some i, None), s2) →
  (∀ x, identity_Overrides i !! Key opts = Some (inject k x) →
     entryFrom env k (S fuel) opts s (Done (x, None), s2)) ∧
  (∀ o x, identity_Overrides i !! Key opts = None →
     overrides (cl s2) !! Key opts = Some o →
     override_Value o = inject k x →
     entryFrom env k (S fuel) opts s (Done (x, None), s2)) ∧
  (∀ pre rule post s3 s4 x,
     identity_Overrides i !! Key opts = None →
     overrides (cl s2) !! Key opts = None →
     flag_DynamicRules f = pre ++ rule :: post →
     allMiss (evalAt env fuel (Identifier opts)) pre s2 s3 →
     evalAt env fuel (Identifier opts) rule s3 = (Done Hit, s4) →
     rule_Value rule = inject k x →
     entryFrom env k (S fuel) opts s (Done (x, None), s4)) ∧
  (∀ s3 x,
     identity_Overrides i !! Key opts = None →
     overrides (cl s2) !! Key opts = None →
     allMiss (evalAt env fuel (Identifier opts)) (flag_DynamicRules f) s2 s3 →
     flag_Value f = inject k x →
     entryFrom env k (S fuel) opts s (Done (x, None), s3)).
Proof.
  intros Hid Hrefresh Hflag Htype Hfetch. repeat split.
  - intros x Hov. apply entryFrom_intro; [|discriminate].
    rewrite entry_S, (evaluate_identity_override env k fuel opts s r0 s1 f i
                        s2 _ Hid Hrefresh Hflag Htype Hfetch Hov).
    unfold bind. now rewrite assertT_inject.
  - intros o x Hov Hglobal Hval. apply entryFrom_intro; [|discriminate].
    rewrite entry_S, (evaluate_after_identity env k fuel opts s r0 s1 f s2
                        Hrefresh Hflag Htype); [|right; eauto].
    rewrite (afterIdentity_override env k fuel opts f s2 o Hglobal), Hval.
    unfold bind. now rewrite assertT_inject.
  - intros pre rule post s3 s4 x Hov Hglobal Hrules Hmiss Hhit Hval.
    apply entryFrom_intro; [|discriminate].
    rewrite (entry_rule_hit env k fuel opts s f s2 pre rule post s3 s4);
      eauto using reachesRules_with_identity.
    rewrite Hval. unfold bind. now rewrite assertT_inject.
  - intros s3 x Hov Hglobal Hmiss Hval.
    apply entryFrom_intro; [|discriminate].
    rewrite (entry_no_rule_hit env k fuel opts s f s2 s3);
      eauto using reachesRules_with_identity.
    rewrite Hval. unfold bind. now rewrite assertT_inject.
Qed.

Lemma precedence_chain_witness :
  let who := "user_123" in
  (∃ s', BoolFlag Sample.overriding 1 {| Key := "is_beta"; Identifier := who |}
           (Sample.refreshed Sample.overridden 1) = (Done (false, None), s')) ∧
  (∃ s', NumberFlag Sample.overriding 1
           {| Key := "plan_limit"; Identifier := who |}
           (Sample.refreshed Sample.overridden 1)
         = (Done (25%float, None), s')) ∧
  (∃ s', StringFlag Sample.world 2 {| Key := "tier"; Identifier := who |}
           (Sample.fresh ∅ 1) = (Done ("beta", None), s')) ∧
  (∃ s', StringFlag Sample.overriding 2 {| Key := "tier"; Identifier := who |}
           (Sample.refreshed Sample.overridden 1) = (Done ("free", None), s')).
Proof.
  intros who. repeat split.
  - eexists. at_depth KBool.
    eapply (proj1 (precedence_chain Sample.overriding KBool 0
                     {| Key := "is_beta"; Identifier := who |}
                     (Sample.refreshed Sample.overridden 1) _ _ _
                     Sample.isBeta _ ltac:(discriminate)
                     ltac:(vm_compute; reflexivity) ltac:(vm_compute; reflexivity)
                     eq_refl ltac:(vm_compute; reflexivity)) false).
    vm_compute; reflexivity.
  - eexists. at_depth KNumber.
    eapply (proj1 (proj2 (precedence_chain Sample.overriding KNumber 0
                     {| Key := "plan_limit"; Identifier := who |}
                     (Sample.refreshed Sample.overridden 1) _ _ _
                     Sample.planLimit _ ltac:(discriminate)
                     ltac:(vm_compute; reflexivity) ltac:(vm_compute; reflexivity)
                     eq_refl ltac:(vm_compute; reflexivity)))
              {| override_ID := "o2"; override_Key := "plan_limit";
                 override_Value := VNumber 25 |} 25%float);
      vm_compute; reflexivity.
  - eexists. at_depth KString.
    eapply (proj1 (proj2 (proj2 (precedence_chain Sample.world KString 1
                     {| Key := "tier"; Identifier := who |}
                     (Sample.fresh ∅ 1) _ _ _
                     Sample.tier _ ltac:(discriminate)
                     ltac:(vm_compute; reflexivity) ltac:(vm_compute; reflexivity)
                     eq_refl ltac:(vm_compute; reflexivity))))
              [] (Sample.whenBeta "==" (VBool true) (VString "beta"))
              [Sample.whenBeta "==" (VBool true) (VString "never")]
              _ _ "beta"%string);
      try apply allMiss_nil; vm_compute; reflexivity.
  - eexists. at_depth KString.
    eapply (proj2 (proj2 (proj2 (precedence_chain Sample.overriding KString 1
                     {| Key := "tier"; Identifier := who |}
                     (Sample.refreshed Sample.overridden 1) _ _ _
                     Sample.tier _ ltac:(discriminate)
                     ltac:(vm_compute; reflexivity) ltac:(vm_compute; reflexivity)
                     eq_refl ltac:(vm_compute; reflexivity))))
              _ "free"%string);
      try (vm_compute; reflexivity).
    apply runMisses_sound. vm_compute; reflexivity.
Defined.

(** C2: when the identifier is not empty and the identity fetch fails,
    [BoolFlag] returns [false] with a nil error, while [NumberFlag] and
    [StringFlag] return their zero value with the failure. *)
Theorem identity_failure_swallowed_by_BoolFlag_only (env : Env) (k : kind)
  (fuel : nat) (opts : FlagOptions) (s s1 s2 : state) (r0 : option error)
  (f : flag) (io : option identity) (err : error) :
  Identifier opts ≠ EmptyString →
  refreshState env s = (Done r0, s1) →
  flags (cl s1) !! Key opts = Some f →
  flag_Type f = typeName k →
  fetchIdentity env (Identifier opts) s1 = (Done (io, Some err), s2) →
  entryFrom env k (S fuel) opts s
    (Done (match k return T k * option error with
           | KBool => (false, None)
           | KNumber => (0%float, Some err)
           | KString => (EmptyString, Some err)
           end), s2).
Proof.
  intros Hid Hrefresh Hflag Htype Hfetch.
  apply entryFrom_intro; [|discriminate].
  rewrite entry_S, (evaluate_identity_error env k fuel opts s r0 s1 f io err
                      s2 Hid Hrefresh Hflag Htype Hfetch).
  now destruct k.
Qed.

Lemma identity_failure_swallowed_by_BoolFlag_only_witness :
  let refused := Sample.unavailable in
  let s := Sample.fresh ∅ 1 in
  (∃ s', BoolFlag Sample.failing 1 {| Key := "is_beta"; Identifier := "u" |} s
         = (Done (false, None), s')) ∧
  (∃ s', NumberFlag Sample.failing 1
           {| Key := "plan_limit"; Identifier := "u" |} s
         = (Done (0%float, Some refused), s')) ∧
  (∃ s', StringFlag Sample.failing 1 {| Key := "tier"; Identifier := "u" |} s
         = (Done (EmptyString, Some refused), s')).
Proof.
  intros refused s. repeat split; eexists.
  - at_depth KBool.
    eapply (identity_failure_swallowed_by_BoolFlag_only Sample.failing KBool 0
              {| Key := "is_beta"; Identifier := "u" |} s _ _ _ Sample.isBeta
              None refused);
      first [discriminate | vm_compute; reflexivity].
  - at_depth KNumber.
    eapply (identity_failure_swallowed_by_BoolFlag_only Sample.failing KNumber
              0 {| Key := "plan_limit"; Identifier := "u" |} s _ _ _
              Sample.planLimit None refused);
      first [discriminate | vm_compute; reflexivity].
  - at_depth KString.
    eapply (identity_failure_swallowed_by_BoolFlag_only Sample.failing KString
              0 {| Key := "tier"; Identifier := "u" |} s _ _ _ Sample.tier
              None refused);
      first [discriminate | vm_compute; reflexivity].
Defined.

(** C3 at a failing input: the snapshot is due, the request for the new
    one is answered with status 503, and [refreshState] returns that error;
    the three entry points drop it and return the values of the old
    snapshot with a nil error. On a client just made, the caller is told
    that the flag does not exist. *)
Lemma refresh_failure_not_returned :
  let s := Sample.due 0 in
  let anonymous key := {| Key := key; Identifier := EmptyString |} in
  fst (refreshState Sample.failing s) = Done (Some Sample.unavailable) ∧
  fst (BoolFlag Sample.failing 1 (anonymous "is_beta") s)
    = Done (true, None) ∧
  fst (NumberFlag Sample.failing 1 (anonymous "plan_limit") s)
    = Done (10%float, None) ∧
  fst (StringFlag Sample.failing 2 (anonymous "tier") s)
    = Done ("beta"%string, None) ∧
  fst (refreshState Sample.failing (Sample.brandNew 0))
    = Done (Some Sample.unavailable) ∧
  fst (BoolFlag Sample.failing 1 (anonymous "is_beta") (Sample.brandNew 0))
    = Done (false, Some ErrFlagNotFound).
Proof. intros s anonymous. repeat split; vm_compute; reflexivity. Qed.

(** ** The rules of a flag *)

(** C9: when the rules of a flag are looked at, they are tested in their
    order, each in the state the one before it left. When the comparisons
    of the rules before a rule are all false and the comparison of that
    rule is true (the operator of the table of the referenced flag's type,
    applied to the value the referenced flag evaluates to and to the
    comparison value of the rule), the result is the value of that rule,
    in the state its comparison left: the rules after it are not
    evaluated, and the loop returns the same whatever they are. *)
Theorem first_matching_rule_wins (env : Env) (k : kind) (fuel : nat)
  (opts : FlagOptions) (s s2 s3 s4 : state) (f : flag)
  (pre post : list dynamicRule) (rule : dynamicRule) (x : T k) :
  reachesRules env k opts s f s2 →
  flag_DynamicRules f = pre ++ rule :: post →
  allFalse env fuel (Identifier opts) pre s2 s3 →
  comparison env fuel (Identifier opts) rule true s3 s4 →
  rule_Value rule = inject k x →
  entryFrom env k (S fuel) opts s (Done (x, None), s4) ∧
  ∀ post',
    rulesAt env k fuel (Identifier opts) (pre ++ rule :: post') s2
    = (Done (Some (x, None)), s4).
Proof.
  intros Hreach Hrules Hfalse Htrue Hval.
  pose proof (allFalse_allMiss env fuel _ pre s2 s3 Hfalse) as Hmiss.
  pose proof (comparison_evalAt env fuel _ rule true s3 s4 Htrue) as Hhit.
  simpl verdictOf in Hhit. split.
  - apply entryFrom_intro; [|discriminate].
    rewrite (entry_rule_hit env k fuel opts s f s2 pre rule post s3 s4
               Hreach Hrules Hmiss Hhit), Hval.
    unfold bind. now rewrite assertT_inject.
  - intros post'.
    rewrite (rulesAt_allMiss env k _ _ _ _ _ _ Hmiss),
      (rulesAt_hit env k _ _ _ post' _ _ Hhit), Hval.
    unfold bind. now rewrite assertT_inject.
Qed.

Lemma first_matching_rule_wins_witness :
  let opts := {| Key := "tier"; Identifier := EmptyString |} in
  let skipped := Sample.whenBeta "!=" (VBool true) (VString "wrong") in
  let taken := Sample.whenBeta "==" (VBool true) (VString "beta") in
  let never := Sample.whenBeta "==" (VBool true) (VString "never") in
  let s :=
    Sample.refreshed
      (Sample.snapshotOf (Sample.tierWith [skipped; taken; never])) 1 in
  ∃ s', StringFlag Sample.world 2 opts s = (Done ("beta"%string, None), s') ∧
    ∀ post',
      rulesAt Sample.world KString 1 EmptyString
        (skipped :: taken :: post') (later 1 s)
      = (Done (Some ("beta"%string, None)), s').
Proof.
  intros opts skipped taken never s.
  pose (inner := {| Key := "is_beta"; Identifier := EmptyString |}).
  pose (s2 := later 1 s).
  pose (s3 := snd (entry Sample.world KBool 1 inner s2)).
  pose (s4 := snd (entry Sample.world KBool 1 inner s3)).
  destruct (first_matching_rule_wins Sample.world KString 1 opts
              s s2 s3 s4 (Sample.tierWith [skipped; taken; never])
              [skipped] [never] taken "beta"%string) as [Hentry Hloop].
  - exists None, s2.
    repeat split; try (vm_compute; reflexivity). now left.
  - reflexivity.
  - apply (allFalse_cons _ _ _ skipped [] s2 s3 s3); [|apply allFalse_nil].
    exists Sample.isBeta, KBool, true, true.
    repeat split; vm_compute; reflexivity.
  - exists Sample.isBeta, KBool, true, true.
    repeat split; vm_compute; reflexivity.
  - reflexivity.
  - exists s4. split; [|exact Hloop].
    exact (entryFrom_at Sample.world KString 2 opts _ _ Hentry).
Defined.

Lemma compare_noOperation k op (y v : T k) s :
  noOperation k op → compare k op y v s = (Panic NilFuncCall, s).
Proof.
  destruct k; simpl; unfold applyOp; intros ->; reflexivity.
Qed.

Lemma not_returnsError_Panic {A} (p : fault) :
  ¬ returnsError (@Panic (A * option error) p).
Proof. intros (a & err & H). discriminate. Qed.

(** C5, as the code has it. Take a rule that is reached (the rules before
    it all miss) whose referenced flag is found and evaluates to a value
    without error. Then a comparison value that is not of the referenced
    flag's type ends the call in a panic (a failed type assertion);
    with a comparison value of that type, an operator missing from the
    type's table ends it in a panic (the call of a nil func); and with a
    comparison that is true, a result value that is not of the evaluated
    flag's type ends it in a panic (a failed type assertion). No error is
    returned in these cases. With a comparison that is false the result
    value of the rule is not looked at, whatever it is: the loop goes on
    with the rules after it. *)
Theorem rule_data_faults_panic (env : Env) (k k' : kind) (fuel : nat)
  (opts : FlagOptions) (s s2 s3 s4 : state) (f ef : flag)
  (pre post : list dynamicRule) (rule : dynamicRule) (y : T k') :
  reachesRules env k opts s f s2 →
  flag_DynamicRules f = pre ++ rule :: post →
  allMiss (evalAt env fuel (Identifier opts)) pre s2 s3 →
  flagsByID (cl s3) !! expr_FlagID (rule_Expression rule) = Some ef →
  flag_Type ef = typeName k' →
  entry env k' fuel {| Key := flag_Key ef; Identifier := Identifier opts |} s3
    = (Done (y, None), s4) →
  ((∀ v, expr_Value (rule_Expression rule) ≠ inject k' v) →
     entryFrom env k (S fuel) opts s (Panic TypeAssertion, s4)) ∧
  (∀ v, expr_Value (rule_Expression rule) = inject k' v →
     noOperation k' (expr_Op (rule_Expression rule)) →
     entryFrom env k (S fuel) opts s (Panic NilFuncCall, s4)) ∧
  (∀ v, expr_Value (rule_Expression rule) = inject k' v →
     compare k' (expr_Op (rule_Expression rule)) y v s4 = (Done true, s4) →
     (∀ x, rule_Value rule ≠ inject k x) →
     entryFrom env k (S fuel) opts s (Panic TypeAssertion, s4)) ∧
  (∀ v, expr_Value (rule_Expression rule) = inject k' v →
     compare k' (expr_Op (rule_Expression rule)) y v s4 = (Done false, s4) →
     rulesAt env k fuel (Identifier opts) (pre ++ rule :: post) s2
     = rulesAt env k fuel (Identifier opts) post s4).
Proof.
  intros Hreach Hrules Hmiss Hef Htype Hrec.
  pose proof (evalAt_found env fuel (Identifier opts) rule s3 ef k' Hef Htype)
    as Heval.
  rewrite (bind_Done _ _ _ _ _ Hrec) in Heval. cbv beta iota in Heval.
  split; [|split; [|split]].
  - intros Hbad. apply entryFrom_intro; [|discriminate].
    apply (entry_rule_panic env k fuel opts s f s2 pre rule post s3 s4);
      try assumption.
    rewrite Heval.
    destruct (assertT_cases k' (expr_Value (rule_Expression rule)) s4)
      as [(v & Hv & _) | [_ Hpanic]]; [now destruct (Hbad v)|].
    now rewrite (bind_Panic _ _ _ _ _ Hpanic).
  - intros v Hv Hop. apply entryFrom_intro; [|discriminate].
    apply (entry_rule_panic env k fuel opts s f s2 pre rule post s3 s4);
      try assumption.
    rewrite Heval, Hv, (bind_Done _ _ _ _ _ (assertT_inject k' v s4)).
    now rewrite (bind_Panic _ _ _ _ _ (compare_noOperation k' _ y v s4 Hop)).
  - intros v Hv Hcmp Hbad. apply entryFrom_intro; [|discriminate].
    rewrite (entry_rule_hit env k fuel opts s f s2 pre rule post s3 s4);
      try assumption.
    + destruct (assertT_cases k (rule_Value rule) s4)
        as [(x & Hx & _) | [_ Hpanic]]; [now destruct (Hbad x)|].
      now rewrite (bind_Panic _ _ _ _ _ Hpanic).
    + rewrite Heval, Hv, (bind_Done _ _ _ _ _ (assertT_inject k' v s4)).
      now rewrite (bind_Done _ _ _ _ _ Hcmp).
  - intros v Hv Hcmp.
    assert (allMiss (evalAt env fuel (Identifier opts)) (pre ++ [rule]) s2 s4)
      as Hall.
    { apply (allMiss_app _ pre [rule] s2 s3 s4 Hmiss).
      apply (allMiss_cons _ rule [] s3 s4 s4); [|constructor].
      rewrite Heval, Hv, (bind_Done _ _ _ _ _ (assertT_inject k' v s4)).
      now rewrite (bind_Done _ _ _ _ _ Hcmp). }
    replace (pre ++ rule :: post) with ((pre ++ [rule]) ++ post)
      by now rewrite <- app_assoc.
    exact (rulesAt_allMiss env k fuel _ _ post s2 s4 Hall).
Qed.

Lemma rule_data_faults_panic_witness :
  let opts := {| Key := "tier"; Identifier := EmptyString |} in
  let run (rule : dynamicRule) :=
    StringFlag Sample.world 2 opts
      (Sample.refreshed (Sample.snapshotOf (Sample.tierWith [rule])) 1) in
  (∃ s', run (Sample.whenBeta "==" (VString "yes") (VString "beta"))
         = (Panic TypeAssertion, s')) ∧
  (∃ s', run (Sample.whenBeta "<" (VBool true) (VString "beta"))
         = (Panic NilFuncCall, s')) ∧
  (∃ s', run (Sample.whenBeta "==" (VBool true) (VNumber 1))
         = (Panic TypeAssertion, s')) ∧
  (∃ s', let rule := Sample.whenBeta "!=" (VBool true) (VNumber 1) in
     rulesAt Sample.world KString 1 EmptyString [rule]
       (later 1 (Sample.refreshed
                   (Sample.snapshotOf (Sample.tierWith [rule])) 1))
     = (Done None, s')).
Proof.
  intros opts run. subst run. cbv beta.
  pose (start := fun rule =>
    Sample.refreshed (Sample.snapshotOf (Sample.tierWith [rule])) 1).
  pose (inner := {| Key := "is_beta"; Identifier := EmptyString |}).
  assert (∀ rule,
    reachesRules Sample.world KString opts (start rule) (Sample.tierWith [rule])
      (later 1 (start rule))) as Hreach.
  { intros rule. exists None, (later 1 (start rule)).
    repeat split; try (vm_compute; reflexivity). now left. }
  assert (∀ rule, expr_FlagID (rule_Expression rule) = "f1"%string →
    ∃ s4,
      flagsByID (cl (later 1 (start rule))) !! expr_FlagID (rule_Expression rule)
        = Some Sample.isBeta ∧
      entry Sample.world KBool 1 inner (later 1 (start rule))
        = (Done (true, None), s4)) as Hrec.
  { intros [[id op v] result] Hid. simpl in Hid. subst id.
    eexists. split; vm_compute; reflexivity. }
  split; [|split; [|split]].
  - destruct (Hrec (Sample.whenBeta "==" (VString "yes") (VString "beta"))
                eq_refl) as (s4 & Hef & Hrun).
    exists s4. at_depth KString.
    apply (proj1 (rule_data_faults_panic Sample.world KString KBool 1 opts
                    _ _ _ _ _ Sample.isBeta [] [] _ true
                    (Hreach _) eq_refl (allMiss_nil _ _) Hef eq_refl Hrun)).
    intros v. discriminate.
  - destruct (Hrec (Sample.whenBeta "<" (VBool true) (VString "beta")) eq_refl)
      as (s4 & Hef & Hrun).
    exists s4. at_depth KString.
    apply (proj1 (proj2 (rule_data_faults_panic Sample.world KString KBool 1
                    opts _ _ _ _ _ Sample.isBeta [] [] _ true
                    (Hreach _) eq_refl (allMiss_nil _ _) Hef eq_refl Hrun))
             true); reflexivity.
  - destruct (Hrec (Sample.whenBeta "==" (VBool true) (VNumber 1)) eq_refl)
      as (s4 & Hef & Hrun).
    exists s4. at_depth KString.
    apply (proj1 (proj2 (proj2 (rule_data_faults_panic Sample.world KString
                    KBool 1 opts _ _ _ _ _ Sample.isBeta [] [] _ true
                    (Hreach _) eq_refl (allMiss_nil _ _) Hef eq_refl Hrun)))
             true); first [ reflexivity | intros x; discriminate ].
  - destruct (Hrec (Sample.whenBeta "!=" (VBool true) (VNumber 1)) eq_refl)
      as (s4 & Hef & Hrun).
    exists s4. cbv zeta.
    apply (proj2 (proj2 (proj2 (rule_data_faults_panic Sample.world KString
                    KBool 1 opts _ _ _ _ _ Sample.isBeta [] [] _ true
                    (Hreach _) eq_refl (allMiss_nil _ _) Hef eq_refl Hrun)))
             true); reflexivity.
Defined.

(** C5 as stated fails: with the operator "<" on a boolean flag, and with
    a string compared to a boolean flag, [StringFlag] panics; it does not
    return an error. *)
Lemma rule_data_fault_is_not_an_error :
  let opts := {| Key := "tier"; Identifier := EmptyString |} in
  let run (rule : dynamicRule) :=
    fst (StringFlag Sample.world 2 opts
           (Sample.refreshed (Sample.snapshotOf (Sample.tierWith [rule])) 1)) in
  run (Sample.whenBeta "<" (VBool true) (VString "beta")) = Panic NilFuncCall ∧
  ¬ returnsError (run (Sample.whenBeta "<" (VBool true) (VString "beta"))) ∧
  run (Sample.whenBeta "==" (VString "yes") (VString "beta"))
    = Panic TypeAssertion ∧
  ¬ returnsError (run (Sample.whenBeta "==" (VString "yes") (VString "beta"))).
Proof.
  intros opts run.
  assert (run (Sample.whenBeta "<" (VBool true) (VString "beta"))
          = Panic NilFuncCall) as H1 by (vm_compute; reflexivity).
  assert (run (Sample.whenBeta "==" (VString "yes") (VString "beta"))
          = Panic TypeAssertion) as H2 by (vm_compute; reflexivity).
  rewrite H1, H2. auto using @not_returnsError_Panic.
Qed.

(** C6, as the code has it: when the recursive evaluation of the flag a
    rule refers to returns an error, the entry point returns its zero
    value with that error; when the flag id of the rule is not in
    [flagsByID], the nil result of the lookup is dereferenced and the call
    panics. *)
Theorem rule_reference_failures (env : Env) (k : kind) (fuel : nat)
  (opts : FlagOptions) (s s2 s3 : state) (f : flag)
  (pre post : list dynamicRule) (rule : dynamicRule) :
  reachesRules env k opts s f s2 →
  flag_DynamicRules f = pre ++ rule :: post →
  allMiss (evalAt env fuel (Identifier opts)) pre s2 s3 →
  (∀ ef k' (y : T k') err s4,
     flagsByID (cl s3) !! expr_FlagID (rule_Expression rule) = Some ef →
     flag_Type ef = typeName k' →
     entry env k' fuel
       {| Key := flag_Key ef; Identifier := Identifier opts |} s3
       = (Done (y, Some err), s4) →
     entryFrom env k (S fuel) opts s (Done (zero k, Some err), s4)) ∧
  (flagsByID (cl s3) !! expr_FlagID (rule_Expression rule) = None →
     entryFrom env k (S fuel) opts s (Panic NilDereference, s3)).
Proof.
  intros Hreach Hrules Hmiss. split.
  - intros ef k' y err s4 Hef Htype Hrec.
    apply entryFrom_intro; [|discriminate].
    apply (entry_rule_abort env k fuel opts s f s2 pre rule post s3 s4);
      try assumption.
    rewrite (evalAt_found env fuel (Identifier opts) rule s3 ef k' Hef Htype).
    now rewrite (bind_Done _ _ _ _ _ Hrec).
  - intros Hnone. apply entryFrom_intro; [|discriminate].
    apply (entry_rule_panic env k fuel opts s f s2 pre rule post s3 s3);
      try assumption.
    now apply evalAt_absent.
Qed.

Lemma rule_reference_failures_witness :
  let opts := {| Key := "tier"; Identifier := "alias" |} in
  let start (rule : dynamicRule) :=
    Sample.refreshed (Sample.snapshotOf (Sample.tierWith [rule])) 1 in
  (∃ s', StringFlag Sample.aliasing 2 opts
           (start (Sample.when "f3" "<" (VNumber 20) (VString "small")))
         = (Done (EmptyString, Some (Sample.unavailable)), s')) ∧
  (∃ s', StringFlag Sample.aliasing 2 opts
           (start (Sample.when "gone" "==" (VBool true) (VString "beta")))
         = (Panic NilDereference, s')).
Proof.
  intros opts start.
  pose (atRules := fun rule =>
    snd (fetchIdentity Sample.aliasing "alias" (later 1 (start rule)))).
  assert (∀ rule,
    reachesRules Sample.aliasing KString opts (start rule)
      (Sample.tierWith [rule]) (atRules rule)) as Hreach.
  { intros rule. exists None, (later 1 (start rule)).
    repeat split; try (vm_compute; reflexivity).
    right. split; [discriminate|]. eexists.
    split; vm_compute; reflexivity. }
  split.
  - eexists. at_depth KString.
    apply (proj1 (rule_reference_failures Sample.aliasing KString 1 opts
                    _ _ _ _ [] [] _ (Hreach _) eq_refl (allMiss_nil _ _))
             Sample.planLimit KNumber 0%float);
      vm_compute; reflexivity.
  - eexists. at_depth KString.
    apply (proj2 (rule_reference_failures Sample.aliasing KString 1 opts
                    _ _ _ _ [] [] _ (Hreach _) eq_refl (allMiss_nil _ _)));
      vm_compute; reflexivity.
Defined.

(** C6 as stated fails for a rule whose flag id is not in [flagsByID]:
    [StringFlag] panics on the nil flag; it does not return an error. *)
Lemma dangling_rule_reference_is_not_an_error :
  let opts := {| Key := "tier"; Identifier := EmptyString |} in
  let rule := Sample.when "gone" "==" (VBool true) (VString "beta") in
  let s := Sample.refreshed (Sample.snapshotOf (Sample.tierWith [rule])) 1 in
  flagsByID (cl s) !! expr_FlagID (rule_Expression rule) = None ∧
  fst (StringFlag Sample.world 2 opts s) = Panic NilDereference ∧
  ¬ returnsError (fst (StringFlag Sample.world 2 opts s)).
Proof.
  intros opts rule s.
  assert (fst (StringFlag Sample.world 2 opts s) = Panic NilDereference) as H
    by (vm_compute; reflexivity).
  rewrite H. split; [vm_compute; reflexivity|]. split; [reflexivity|].
  apply not_returnsError_Panic.
Qed.


(** * Further properties of the engine *)

(** ** Lookup failures *)

(** X1: a key that is not in the snapshot after the refresh gives the zero
    value with [ErrFlagNotFound], whatever the identifier; the call ends
    in the state the refresh left, so no identity is fetched. *)
Theorem unknown_key_is_FlagNotFound (env : Env) (k : kind) (fuel : nat)
  (opts : FlagOptions) (s s1 : state) (r0 : option error) :
  refreshState env s = (Done r0, s1) →
  flags (cl s1) !! Key opts = None →
  entryFrom env k (S fuel) opts s (Done (zero k, Some ErrFlagNotFound), s1).
Proof.
  intros Hrefresh Hflag. apply entryFrom_intro; [|discriminate].
  rewrite entry_S. unfold evaluate.
  now rewrite (bind_Done _ _ _ _ _ Hrefresh), bind_get, Hflag.
Qed.

Lemma unknown_key_is_FlagNotFound_witness :
  let s := Sample.fresh ∅ 1 in
  NumberFlag Sample.world 1 {| Key := "nope"; Identifier := "u" |} s
  = (Done (0%float, Some ErrFlagNotFound), later 1 s).
Proof.
  intros s. at_depth KNumber.
  apply (unknown_key_is_FlagNotFound Sample.world KNumber 0 _ s (later 1 s) None);
    vm_compute; reflexivity.
Defined.

(** X2: a flag whose type is not the one of the entry point gives the zero
    value with [ErrInvalidFlagType], before any override, rule or identity
    is looked at; a flag of a type other than the three is refused by all
    three entry points. *)
Theorem wrong_type_is_InvalidFlagType (env : Env) (k : kind) (fuel : nat)
  (opts : FlagOptions) (s s1 : state) (r0 : option error) (f : flag) :
  refreshState env s = (Done r0, s1) →
  flags (cl s1) !! Key opts = Some f →
  flag_Type f ≠ typeName k →
  entryFrom env k (S fuel) opts s (Done (zero k, Some ErrInvalidFlagType), s1).
Proof.
  intros Hrefresh Hflag Htype. apply entryFrom_intro; [|discriminate].
  rewrite entry_S. unfold evaluate.
  rewrite (bind_Done _ _ _ _ _ Hrefresh), bind_get, Hflag.
  apply String.eqb_neq in Htype. now rewrite Htype.
Qed.

Lemma wrong_type_is_InvalidFlagType_witness :
  let s := Sample.refreshed Sample.overridden 1 in
  BoolFlag Sample.overriding 1 {| Key := "plan_limit"; Identifier := "u" |} s
  = (Done (false, Some ErrInvalidFlagType), later 1 s).
Proof.
  intros s. at_depth KBool.
  apply (wrong_type_is_InvalidFlagType Sample.overriding KBool 0 _ s (later 1 s)
           None Sample.planLimit);
    first [discriminate | vm_compute; reflexivity].
Defined.


(** ** The requests an evaluation sends *)

Section Requests.

Context (env : Env) (identifier : string).

Lemma sendsOnly_silent {A} (c : M A) :
  (∀ s, calls (snd (c s)) = calls s) → sendsOnly identifier c.
Proof.
  intros H s o s' Hrun. exists []. split; [|constructor].
  rewrite app_nil_r. specialize (H s). now rewrite Hrun in H.
Qed.

Lemma sendsOnly_bind {A B} (c : M A) (k : A → M B) :
  sendsOnly identifier c → (∀ a, sendsOnly identifier (k a)) →
  sendsOnly identifier (bind c k).
Proof.
  intros Hc Hk s o s' Hrun. unfold bind in Hrun.
  destruct (c s) as [[a|p|] s1] eqn:E;
    destruct (Hc _ _ _ E) as (l1 & Hl1 & Hall1).
  - destruct (Hk a _ _ _ Hrun) as (l2 & Hl2 & Hall2).
    exists (l1 ++ l2). split; [|now apply Forall_app].
    now rewrite Hl2, Hl1, app_assoc.
  - injection Hrun as <- <-. eauto.
  - injection Hrun as <- <-. eauto.
Qed.

Lemma sendsOnly_call {A} (req : request) (answer : nat → reply A) :
  allowedRequest identifier req → sendsOnly identifier (call req answer).
Proof.
  intros Hreq s o s' Hrun. exists [req].
  split; [|constructor; [exact Hreq | constructor]].
  unfold call in Hrun.
  destruct (answer (tick s)); injection Hrun as <- <-; reflexivity.
Qed.

Lemma sendsOnly_isStale i : sendsOnly identifier (isStale env i).
Proof. now apply sendsOnly_silent. Qed.

Lemma sendsOnly_assertT k v : sendsOnly identifier (assertT k v).
Proof. apply sendsOnly_silent. intros s. now destruct k, v. Qed.

Lemma sendsOnly_compare k op y v : sendsOnly identifier (compare k op y v).
Proof.
  apply sendsOnly_silent. intros s.
  destruct k; simpl; unfold applyOp;
    match goal with |- context [?t !! op] => destruct (t !! op) end;
    reflexivity.
Qed.

Lemma sendsOnly_sweep entries : ∀ ids, sendsOnly identifier (sweep env entries ids).
Proof.
  intros ids. apply sendsOnly_silent. intros s.
  destruct (sweep_run env entries ids s) as (ids' & -> & _). reflexivity.
Qed.

Lemma fillFlags_silent l : ∀ a b s, snd (fillFlags l a b s) = s.
Proof. induction l as [|[f|] l IH]; intros a b s; simpl; auto. Qed.

Lemma fillOverrides_silent l : ∀ a s, snd (fillOverrides l a s) = s.
Proof. induction l as [|[o|] l IH]; intros a s; simpl; auto. Qed.

Lemma sendsOnly_refreshState : sendsOnly identifier (refreshState env).
Proof.
  unfold refreshState.
  apply sendsOnly_bind; [now apply sendsOnly_silent|]. intros now.
  apply sendsOnly_bind; [now apply sendsOnly_silent|]. intros s.
  destruct (Z.ltb _ _); [now apply sendsOnly_silent|].
  apply sendsOnly_bind; [apply sendsOnly_call; now left|].
  intros [err|resp]; [now apply sendsOnly_silent|].
  apply sendsOnly_bind.
  { apply sendsOnly_silent. intros s0. now rewrite fillFlags_silent. }
  intros filled.
  apply sendsOnly_bind.
  { apply sendsOnly_silent. intros s0. now rewrite fillOverrides_silent. }
  intros ovs.
  apply sendsOnly_bind; [now apply sendsOnly_silent|]. intros _.
  apply sendsOnly_bind; [now apply sendsOnly_silent|]. intros s0.
  apply sendsOnly_bind; [apply sendsOnly_sweep|]. intros ids.
  apply sendsOnly_bind; [now apply sendsOnly_silent|]. intros _.
  apply sendsOnly_bind; [|intros _]; now apply sendsOnly_silent.
Qed.

Lemma sendsOnly_fetchIdentity :
  identifier ≠ EmptyString → sendsOnly identifier (fetchIdentity env identifier).
Proof.
  intros Hid.
  assert (sendsOnly identifier (fetchIdentityRemote env identifier)) as Hremote.
  { unfold fetchIdentityRemote.
    apply sendsOnly_bind; [apply sendsOnly_call; now right|].
    intros [err|decoded]; [now apply sendsOnly_silent|].
    apply sendsOnly_bind; [now apply sendsOnly_silent|]. intros now.
    apply sendsOnly_bind; [now apply sendsOnly_silent|]. intros s.
    apply sendsOnly_bind; [|intros _]; now apply sendsOnly_silent. }
  unfold fetchIdentity.
  apply sendsOnly_bind; [now apply sendsOnly_silent|]. intros s.
  destruct (identities (cl s) !! identifier) as [i|]; [|exact Hremote].
  apply sendsOnly_bind; [apply sendsOnly_isStale|]. intros stale.
  destruct (negb stale); [now apply sendsOnly_silent | exact Hremote].
Qed.

Lemma sendsOnly_evalAt fuel rule :
  (∀ k opts, Identifier opts = identifier →
     sendsOnly identifier (entry env k fuel opts)) →
  sendsOnly identifier (evalAt env fuel identifier rule).
Proof.
  intros IH. unfold evalAt, evalExpression.
  apply sendsOnly_bind; [now apply sendsOnly_silent|]. intros s.
  destruct (flagsByID (cl s) !! _) as [ef|]; [|now apply sendsOnly_silent].
  assert (∀ k, sendsOnly identifier
            (let* r := entry env k fuel
                         {| Key := flag_Key ef; Identifier := identifier |} in
             match r with
             | (_, Some err) => ret (Abort err)
             | (y, None) =>
                 let* v := assertT k (expr_Value (rule_Expression rule)) in
                 let* c := compare k (expr_Op (rule_Expression rule)) y v in
                 ret (verdictOf c)
             end)) as Hcase.
  { intros k. apply sendsOnly_bind; [now apply IH|].
    intros [y [err|]]; [now apply sendsOnly_silent|].
    apply sendsOnly_bind; [apply sendsOnly_assertT|]. intros v.
    apply sendsOnly_bind; [apply sendsOnly_compare|]. intros c.
    now apply sendsOnly_silent. }
  destruct (String.eqb (flag_Type ef) typeBoolean); [exact (Hcase KBool)|].
  destruct (String.eqb (flag_Type ef) typeNumber); [exact (Hcase KNumber)|].
  destruct (String.eqb (flag_Type ef) typeString); [exact (Hcase KString)|].
  now apply sendsOnly_silent.
Qed.

Lemma sendsOnly_rulesAt k fuel rules :
  (∀ k opts, Identifier opts = identifier →
     sendsOnly identifier (entry env k fuel opts)) →
  sendsOnly identifier (rulesAt env k fuel identifier rules).
Proof.
  intros IH. induction rules as [|rule rest IHrules];
    [now apply sendsOnly_silent|].
  unfold rulesAt. simpl forRules. fold (evalAt env fuel).
  apply sendsOnly_bind; [now apply sendsOnly_evalAt|].
  intros [err| |]; [now apply sendsOnly_silent| |exact IHrules].
  apply sendsOnly_bind; [apply sendsOnly_assertT|]. intros x.
  now apply sendsOnly_silent.
Qed.

End Requests.

Lemma entry_afterRefresh (env : Env) k fuel opts :
  entry env k (S fuel) opts
  = (let* _ := refreshState env in afterRefresh env k fuel opts).
Proof. now rewrite entry_S. Qed.

Lemma sendsOnly_afterRefresh (env : Env) fuel k opts :
  (∀ k' opts', Identifier opts' = Identifier opts →
     sendsOnly (Identifier opts) (entry env k' fuel opts')) →
  sendsOnly (Identifier opts) (afterRefresh env k fuel opts).
Proof.
  intros IH. unfold afterRefresh.
  apply sendsOnly_bind; [now apply sendsOnly_silent|]. intros s.
  destruct (flags (cl s) !! Key opts) as [f|]; [|now apply sendsOnly_silent].
  destruct (negb _); [now apply sendsOnly_silent|].
  assert (sendsOnly (Identifier opts) (afterIdentity env k fuel opts f))
    as Hafter.
  { unfold afterIdentity.
    apply sendsOnly_bind; [now apply sendsOnly_silent|]. intros s1.
    destruct (overrides (cl s1) !! Key opts).
    - apply sendsOnly_bind; [apply sendsOnly_assertT|]. intros x.
      now apply sendsOnly_silent.
    - apply sendsOnly_bind; [now apply sendsOnly_rulesAt|].
      intros [res|]; [now apply sendsOnly_silent|].
      apply sendsOnly_bind; [apply sendsOnly_assertT|]. intros x.
      now apply sendsOnly_silent. }
  destruct (String.eqb_spec (Identifier opts) EmptyString) as [Hid|Hid];
    [exact Hafter|]. cbn [negb].
  apply sendsOnly_bind; [now apply sendsOnly_fetchIdentity|].
  intros [[i|] [err|]]; try now apply sendsOnly_silent.
  destruct (identity_Overrides i !! Key opts); [|exact Hafter].
  apply sendsOnly_bind; [apply sendsOnly_assertT|]. intros x.
  now apply sendsOnly_silent.
Qed.

Lemma sendsOnly_entry (env : Env) : ∀ fuel k opts,
  sendsOnly (Identifier opts) (entry env k fuel opts).
Proof.
  induction fuel as [|fuel IH]; intros k opts.
  - apply sendsOnly_silent. intros s. now rewrite entry_O.
  - rewrite entry_afterRefresh.
    apply sendsOnly_bind; [apply sendsOnly_refreshState|]. intros _.
    apply sendsOnly_afterRefresh. intros k' opts' <-. apply IH.
Qed.

(** X3: whatever the depth and however the call ends, the requests an
    evaluation sends are requests for the snapshot and requests for the
    identity of its own identifier; with an empty identifier no identity
    is ever requested, in the evaluation of referenced flags either. *)
Theorem requests_of_an_evaluation (env : Env) (k : kind) (fuel : nat)
  (opts : FlagOptions) (s : state) :
  ∃ l, calls (snd (entry env k fuel opts s)) = calls s ++ l ∧
    (∀ r, r ∈ l →
       r = ReqInitialize ∨
       (Identifier opts ≠ EmptyString ∧ r = ReqIdentity (Identifier opts))) ∧
    (Identifier opts = EmptyString → ∀ r, r ∈ l → r = ReqInitialize).
Proof.
  destruct (entry env k fuel opts s) as [o s'] eqn:E.
  destruct (sendsOnly_entry env fuel k opts s o s' E) as (l & Hl & Hall).
  exists l. split; [exact Hl|].
  rewrite Forall_forall in Hall. split; [exact Hall|].
  intros Hid r Hr. destruct (Hall r Hr) as [H|[H _]]; [exact H|].
  now destruct H.
Qed.

Lemma requests_of_an_evaluation_witness :
  ∃ l, calls (snd (StringFlag Sample.world 2
                     {| Key := "tier"; Identifier := EmptyString |}
                     (Sample.due 0))) = l ∧
    ∀ r, r ∈ l → r = ReqInitialize.
Proof.
  destruct (requests_of_an_evaluation Sample.world KString 2
              {| Key := "tier"; Identifier := EmptyString |} (Sample.due 0))
    as (l & Hl & _ & Honly).
  exists l. split; [exact Hl|]. now apply Honly.
Defined.


(** ** Evaluation from memory *)

Section Steady.

Context (env : Env) (identifier : string).

Lemma servedFromMemory_cl s t :
  cl s = cl t → servedFromMemory env identifier s →
  servedFromMemory env identifier t.
Proof. intros H Hs. unfold servedFromMemory, inWindow in *. now rewrite <- H. Qed.

(** A computation that ignores the state is steady. *)
Lemma steady_pure {A} (c : M A) (o : outcome A) :
  (∀ s, c s = (o, s)) → steady env identifier c.
Proof. intros H s t _ _. exists o, s, t. rewrite !H. auto 10. Qed.

Lemma steady_ret {A} (a : A) : steady env identifier (ret a).
Proof. now apply (steady_pure _ (Done a)). Qed.

Lemma steady_panic {A} (p : fault) : steady env identifier (@panic A p).
Proof. now apply (steady_pure _ (Panic p)). Qed.

Lemma steady_bind {A B} (c : M A) (k : A → M B) :
  steady env identifier c → (∀ a, steady env identifier (k a)) →
  steady env identifier (bind c k).
Proof.
  intros Hc Hk s t Hs Hcl.
  destruct (Hc s t Hs Hcl) as (o & s1 & t1 & Es & Et & Hs1 & Ht1 & Hl1 & Hm1).
  unfold bind. rewrite Es, Et. destruct o as [a|p|].
  - destruct (Hk a s1 t1) as (o' & s2 & t2 & Es2 & Et2 & Hs2 & Ht2 & Hl2 & Hm2).
    + now apply (servedFromMemory_cl s).
    + congruence.
    + exists o', s2, t2. repeat split; congruence.
  - exists (Panic p), s1, t1. auto 10.
  - exists OutOfFuel, s1, t1. auto 10.
Qed.

(** Reading the state and going on with its client only. *)
Lemma steady_get {B} (k : state → M B) :
  (∀ s t, cl s = cl t → k s = k t) → (∀ s, steady env identifier (k s)) →
  steady env identifier (bind get k).
Proof.
  intros Hk Hsteady s t Hs Hcl. rewrite !bind_get, <- (Hk s t Hcl).
  now apply Hsteady.
Qed.

Lemma steady_refreshState : steady env identifier (refreshState env).
Proof.
  intros s t Hs Hcl. exists (Done None), (later 1 s), (later 1 t).
  rewrite (refreshState_skip env s (proj1 Hs _)).
  rewrite (refreshState_skip env t
             (proj1 (servedFromMemory_cl s t Hcl Hs) _)). auto 10.
Qed.

(** The entry of the cache is returned, without a request. *)
Lemma steady_fetchIdentity :
  identifier ≠ EmptyString → steady env identifier (fetchIdentity env identifier).
Proof.
  intros Hid s t Hs Hcl.
  destruct Hs as [_ [Hempty | (i & Hi & Hfresh)]]; [now destruct Hid|].
  exists (Done (Some i, None)), (later 1 s), (later 1 t).
  rewrite (fetchIdentity_cached env identifier s i Hi (Hfresh _)).
  rewrite Hcl in Hi.
  rewrite (fetchIdentity_cached env identifier t i Hi (Hfresh _)). auto 10.
Qed.

Lemma steady_assertT k v : steady env identifier (assertT k v).
Proof.
  destruct (assertT_cases k v {| cl := NewClient; tick := 0; calls := [] |})
    as [(x & Hx & _) | [Hbad _]].
  - apply (steady_pure _ (Done x)). intros s. rewrite Hx.
    apply assertT_inject.
  - apply (steady_pure _ (Panic TypeAssertion)). intros s.
    destruct (assertT_cases k v s) as [(x & Hx & _) | [_ H]]; [|exact H].
    now destruct (Hbad x).
Qed.

Lemma steady_compare k op y v : steady env identifier (compare k op y v).
Proof.
  destruct k; simpl; unfold applyOp;
    match goal with |- context [?t !! op] => destruct (t !! op) end;
    first [ apply steady_ret | apply steady_panic ].
Qed.

Lemma steady_evalAt fuel rule :
  (∀ k opts, Identifier opts = identifier →
     steady env identifier (entry env k fuel opts)) →
  steady env identifier (evalAt env fuel identifier rule).
Proof.
  intros IH. unfold evalAt, evalExpression.
  apply steady_get; [intros s t H; now rewrite H|]. intros s.
  destruct (flagsByID (cl s) !! _) as [ef|]; [|apply steady_panic].
  assert (∀ k, steady env identifier
            (let* r := entry env k fuel
                         {| Key := flag_Key ef; Identifier := identifier |} in
             match r with
             | (_, Some err) => ret (Abort err)
             | (y, None) =>
                 let* v := assertT k (expr_Value (rule_Expression rule)) in
                 let* c := compare k (expr_Op (rule_Expression rule)) y v in
                 ret (verdictOf c)
             end)) as Hcase.
  { intros k. apply steady_bind; [now apply IH|].
    intros [y [err|]]; [apply steady_ret|].
    apply steady_bind; [apply steady_assertT|]. intros v.
    apply steady_bind; [apply steady_compare|]. intros c.
    apply steady_ret. }
  destruct (String.eqb (flag_Type ef) typeBoolean); [exact (Hcase KBool)|].
  destruct (String.eqb (flag_Type ef) typeNumber); [exact (Hcase KNumber)|].
  destruct (String.eqb (flag_Type ef) typeString); [exact (Hcase KString)|].
  apply steady_ret.
Qed.

Lemma steady_rulesAt k fuel rules :
  (∀ k opts, Identifier opts = identifier →
     steady env identifier (entry env k fuel opts)) →
  steady env identifier (rulesAt env k fuel identifier rules).
Proof.
  intros IH. induction rules as [|rule rest IHrules]; [apply steady_ret|].
  unfold rulesAt. simpl forRules. fold (evalAt env fuel).
  apply steady_bind; [now apply steady_evalAt|].
  intros [err| |]; [apply steady_ret| |exact IHrules].
  apply steady_bind; [apply steady_assertT|]. intros x. apply steady_ret.
Qed.

Lemma steady_entry : ∀ fuel k opts,
  Identifier opts = identifier → steady env identifier (entry env k fuel opts).
Proof.
  induction fuel as [|fuel IH]; intros k opts Hid.
  - apply (steady_pure _ OutOfFuel). intros s. apply entry_O.
  - rewrite entry_S. unfold evaluate.
    apply steady_bind; [apply steady_refreshState|]. intros _.
    apply steady_get; [intros s t H; now rewrite H|]. intros s.
    destruct (flags (cl s) !! Key opts) as [f|]; [|apply steady_ret].
    destruct (negb (String.eqb (flag_Type f) (typeName k)));
      [apply steady_ret|].
    assert (steady env identifier (afterIdentity env k fuel opts f)) as Hafter.
    { unfold afterIdentity.
      apply steady_get; [intros s1 t1 H; now rewrite H|]. intros s1.
      destruct (overrides (cl s1) !! Key opts).
      - apply steady_bind; [apply steady_assertT|]. intros x.
        apply steady_ret.
      - apply steady_bind; [rewrite Hid; now apply steady_rulesAt|].
        intros [res|]; [apply steady_ret|].
        apply steady_bind; [apply steady_assertT|]. intros x.
        apply steady_ret. }
    rewrite Hid.
    destruct (String.eqb_spec identifier EmptyString) as [Hempty|Hfull];
      [exact Hafter|]. cbn [negb].
    apply steady_bind; [now apply steady_fetchIdentity|].
    intros [[i|] [err|]]; try apply steady_ret; try apply steady_panic.
    destruct (identity_Overrides i !! Key opts); [|exact Hafter].
    apply steady_bind; [apply steady_assertT|]. intros x. apply steady_ret.
Qed.

End Steady.

(** X4: when no refresh is due at any clock reading and the identifier is
    empty or has a cache entry that no clock reading finds stale, an
    evaluation sends nothing and leaves the client as it was, and it ends
    in the same way from every state with that client: asked again, it
    gives the same answer. *)
Theorem evaluation_from_memory_is_repeatable (env : Env) (k : kind)
  (fuel : nat) (opts : FlagOptions) (s : state) :
  servedFromMemory env (Identifier opts) s →
  cl (snd (entry env k fuel opts s)) = cl s ∧
  calls (snd (entry env k fuel opts s)) = calls s ∧
  (∀ t, cl t = cl s →
     fst (entry env k fuel opts t) = fst (entry env k fuel opts s)) ∧
  fst (entry env k fuel opts (snd (entry env k fuel opts s)))
    = fst (entry env k fuel opts s).
Proof.
  intros Hs.
  assert (∀ t, cl s = cl t →
            cl (snd (entry env k fuel opts s)) = cl s ∧
            calls (snd (entry env k fuel opts s)) = calls s ∧
            fst (entry env k fuel opts t) = fst (entry env k fuel opts s))
    as H.
  { intros t Hcl.
    destruct (steady_entry env (Identifier opts) fuel k opts eq_refl s t Hs Hcl)
      as (o & s' & t' & -> & -> & H1 & _ & H2 & _). auto. }
  destruct (H s eq_refl) as (Hcl & Hcalls & _).
  repeat split; try assumption.
  - intros t Ht. now apply H.
  - now apply H.
Qed.

Lemma evaluation_from_memory_is_repeatable_witness :
  let anonymous := {| Key := "tier"; Identifier := EmptyString |} in
  let known := {| Key := "tier"; Identifier := "u" |} in
  let s := Sample.fresh {[ "u" := Sample.user "u" ∅ 0 ]} 0 in
  calls (snd (StringFlag Sample.still 2 anonymous s)) = [] ∧
  calls (snd (StringFlag Sample.still 2 known s)) = [] ∧
  fst (StringFlag Sample.still 2 known (snd (StringFlag Sample.still 2 known s)))
    = fst (StringFlag Sample.still 2 known s).
Proof.
  intros anonymous known s.
  assert (inWindow Sample.still s) as Hwin by (intros n; now vm_compute).
  destruct (evaluation_from_memory_is_repeatable Sample.still KString 2
              anonymous s) as (_ & Hcalls & _).
  { split; [exact Hwin | now left]. }
  destruct (evaluation_from_memory_is_repeatable Sample.still KString 2
              known s) as (_ & Hcalls' & _ & Hagain).
  { split; [exact Hwin|]. right. exists (Sample.user "u" ∅ 0).
    split; [reflexivity|]. intros n. now vm_compute. }
  auto.
Defined.

Lemma rulesAt_outOfFuel (env : Env) k fuel identifier rule post s s' :
  evalAt env fuel identifier rule s = (OutOfFuel, s') →
  rulesAt env k fuel identifier (rule :: post) s = (OutOfFuel, s').
Proof.
  intros H. unfold rulesAt. simpl forRules. fold (evalAt env fuel).
  now rewrite (bind_OutOfFuel _ _ _ _ H).
Qed.

(** X5: there is no guard against cycles. When the first rule of a flag
    refers to the flag itself, an evaluation that reaches the rules (empty
    identifier, no global override, no refresh due) exceeds every bound on
    the depth of its calls: the Go call recurses until the stack is
    exhausted. *)
Theorem self_referring_rule_never_returns (env : Env) (k : kind) (f : flag)
  (rule : dynamicRule) (rest : list dynamicRule) :
  ∀ (fuel : nat) (opts : FlagOptions) (s : state),
  inWindow env s →
  Identifier opts = EmptyString →
  flags (cl s) !! Key opts = Some f →
  flag_Key f = Key opts →
  flag_Type f = typeName k →
  overrides (cl s) !! Key opts = None →
  flag_DynamicRules f = rule :: rest →
  flagsByID (cl s) !! expr_FlagID (rule_Expression rule) = Some f →
  fst (entry env k fuel opts s) = OutOfFuel.
Proof.
  induction fuel as [|fuel IH];
    intros opts s Hs Hid Hflag Hkey Htype Hov Hrules Hself.
  - now rewrite entry_O.
  - assert (reachesRules env k opts s f (later 1 s)) as Hreach.
    { exists None, (later 1 s). split; [apply refreshState_skip, Hs|].
      repeat split; try assumption. now left. }
    rewrite (entry_reaches_rules env k fuel opts s f (later 1 s) Hreach), Hrules.
    pose (inner := {| Key := flag_Key f; Identifier := Identifier opts |}).
    assert (fst (entry env k fuel inner (later 1 s)) = OutOfFuel) as Hinner.
    { apply IH; simpl; try assumption; rewrite ?Hkey; try assumption.
      reflexivity. }
    destruct (entry env k fuel inner (later 1 s)) as [o s'] eqn:E.
    simpl in Hinner. subst o.
    assert (evalAt env fuel (Identifier opts) rule (later 1 s) = (OutOfFuel, s'))
      as Heval.
    { rewrite (evalAt_found env fuel _ rule (later 1 s) f k Hself Htype).
      fold inner. now rewrite (bind_OutOfFuel _ _ _ _ E). }
    unfold bind at 1.
    now rewrite (rulesAt_outOfFuel env k fuel _ rule rest _ _ Heval).
Qed.

Lemma self_referring_rule_never_returns_witness :
  fst (entry Sample.still KString 3
         {| Key := "tier"; Identifier := EmptyString |}
         (Sample.refreshed (Sample.snapshotOf Sample.loop) 0))
  = OutOfFuel.
Proof.
  apply (self_referring_rule_never_returns Sample.still KString Sample.loop
           (Sample.when "f2" "==" (VString "free") (VString "beta")) [] 3
           {| Key := "tier"; Identifier := EmptyString |});
    first [ intros n; now vm_compute | vm_compute; reflexivity ].
Defined.

(** ** The indexes a refresh builds *)

Section Index.

Context {A : Type} (key : A → string).

Lemma index_snoc l x : indexBy key (l ++ [x]) = <[key x := x]> (indexBy key l).
Proof. unfold indexBy. now rewrite foldl_snoc. Qed.

Lemma index_lookup_Some l : ∀ k x,
  indexBy key l !! k = Some x → x ∈ l ∧ key x = k.
Proof.
  induction l as [|y l IH] using rev_ind; intros k x H.
  - discriminate.
  - rewrite index_snoc in H. destruct (decide (key y = k)) as [<-|Hne].
    + rewrite lookup_insert_eq in H. injection H as <-.
      split; [|reflexivity]. apply elem_of_app. right. constructor.
    + rewrite lookup_insert_ne in H by exact Hne.
      destruct (IH k x H) as [Hin Hk]. split; [|exact Hk].
      apply elem_of_app. now left.
Qed.

Lemma index_lookup_is_Some l k :
  is_Some (indexBy key l !! k) ↔ ∃ x, x ∈ l ∧ key x = k.
Proof.
  split.
  - intros [x Hx]. exists x. now apply index_lookup_Some.
  - intros (x & Hin & Hk). revert Hin.
    induction l as [|y l IH] using rev_ind; intros Hin; [set_solver|].
    rewrite index_snoc. destruct (decide (key y = k)) as [<-|Hne].
    + rewrite lookup_insert_eq. eauto.
    + rewrite lookup_insert_ne by exact Hne. apply IH.
      apply elem_of_app in Hin as [Hin|Hin]; [exact Hin|].
      apply list_elem_of_singleton in Hin. congruence.
Qed.

(** The element that comes last under a key is the one stored. *)
Lemma index_last_wins l1 x : ∀ l2,
  (∀ y, y ∈ l2 → key y ≠ key x) →
  indexBy key (l1 ++ x :: l2) !! key x = Some x.
Proof.
  induction l2 as [|y l2 IH] using rev_ind; intros Hlater.
  - rewrite index_snoc. apply lookup_insert_eq.
  - replace (l1 ++ x :: l2 ++ [y]) with ((l1 ++ x :: l2) ++ [y])
      by now rewrite <- app_assoc.
    rewrite index_snoc, lookup_insert_ne.
    + apply IH. intros z Hz. apply Hlater. set_solver.
    + apply Hlater. set_solver.
Qed.

End Index.

Lemma refreshState_swap_sweep (env : Env) (s : state) (resp : response)
  (fs : list flag) (os : list override) :
  lastRefresh (cl s) + stateRefreshRate ≤ now_at env (tick s) →
  initialize_at env (S (tick s)) = Decoded resp →
  resp_Flags resp = Some <$> fs →
  resp_Overrides resp = Some <$> os →
  ∀ start, start = {| cl := {| flags := indexFlagsByKey fs;
                                flagsByID := indexFlagsByID fs;
                                overrides := indexOverrides os;
                                identities := identities (cl s);
                                lastRefresh := lastRefresh (cl s) |};
                       tick := 2 + tick s;
                       calls := calls s ++ [ReqInitialize] |} →
  ∃ ids,
    fst (sweep env (map_to_list (identities (cl s))) (identities (cl s)) start)
      = Done ids ∧
    cl (snd (refreshState env s))
    = {| flags := indexFlagsByKey fs;
         flagsByID := indexFlagsByID fs;
         overrides := indexOverrides os;
         identities := ids;
         lastRefresh := now_at env (tick s) |}.
Proof.
  intros H Hcall Hfs Hos start ->.
  unfold refreshState, bind, timeNow, get, callInitialize, call, setSnapshot,
    setIdentities, setLastRefresh, setClient, ret.
  simpl. apply Z.ltb_ge in H. rewrite H. simpl. rewrite Hcall. simpl.
  rewrite Hfs, fillFlags_objects, Hos, fillOverrides_objects. simpl.
  fold (indexFlagsByKey fs) (indexFlagsByID fs) (indexOverrides os).
  match goal with |- context [sweep env ?l ?m ?st] =>
    destruct (sweep_run env l m st) as (ids & Hrun & _); rewrite Hrun end.
  exists ids. split; reflexivity.
Qed.

(** X6: a refresh that is due and decodes a body whose arrays hold the
    objects [fs] and [os], none of them [null], replaces the snapshot by
    exactly these: every entry of the three indexes is one of the objects,
    stored under its own key (or id), a key is present exactly when one of
    the objects has it, and every flag that can be reached by id has its
    key in the index by key. *)
Theorem refresh_installs_exactly_the_response (env : Env) (s : state)
  (resp : response) (fs : list flag) (os : list override) :
  lastRefresh (cl s) + stateRefreshRate ≤ now_at env (tick s) →
  initialize_at env (S (tick s)) = Decoded resp →
  resp_Flags resp = Some <$> fs →
  resp_Overrides resp = Some <$> os →
  let c := cl (snd (refreshState env s)) in
  (∀ key f, flags c !! key = Some f → f ∈ fs ∧ flag_Key f = key) ∧
  (∀ key, is_Some (flags c !! key) ↔ ∃ f, f ∈ fs ∧ flag_Key f = key) ∧
  (∀ id f, flagsByID c !! id = Some f → f ∈ fs ∧ flag_ID f = id) ∧
  (∀ id, is_Some (flagsByID c !! id) ↔ ∃ f, f ∈ fs ∧ flag_ID f = id) ∧
  (∀ key o, overrides c !! key = Some o → o ∈ os ∧ override_Key o = key) ∧
  (∀ key, is_Some (overrides c !! key)
          ↔ ∃ o, o ∈ os ∧ override_Key o = key) ∧
  (∀ id f, flagsByID c !! id = Some f → is_Some (flags c !! flag_Key f)).
Proof.
  intros H E Hfs Hos c.
  destruct (refreshState_swap env s resp fs os H E Hfs Hos) as (ids & _ & Hrun).
  subst c. rewrite Hrun. simpl.
  change indexFlagsByKey with (indexBy flag_Key).
  change indexFlagsByID with (indexBy flag_ID).
  change indexOverrides with (indexBy override_Key).
  split; [|split; [|split; [|split; [|split; [|split]]]]].
  - intros key f Hf. now apply (index_lookup_Some flag_Key) in Hf.
  - intros key. apply (index_lookup_is_Some flag_Key).
  - intros id f Hf. now apply (index_lookup_Some flag_ID) in Hf.
  - intros id. apply (index_lookup_is_Some flag_ID).
  - intros key o Ho. now apply (index_lookup_Some override_Key) in Ho.
  - intros key. apply (index_lookup_is_Some override_Key).
  - intros id f Hf. apply (index_lookup_is_Some flag_Key).
    apply (index_lookup_Some flag_ID) in Hf as [Hin _]. eauto.
Qed.

Lemma refresh_installs_exactly_the_response_witness :
  let c := cl (snd (refreshState Sample.world (Sample.due 0))) in
  is_Some (flags c !! "tier") ∧ ¬ is_Some (flags c !! "retired") ∧
  is_Some (flagsByID c !! "f3").
Proof.
  destruct (refresh_installs_exactly_the_response Sample.world (Sample.due 0)
              Sample.snapshot
              [Sample.isBeta; Sample.tier; Sample.planLimit] [])
    as (_ & Hkeys & _ & Hids & _).
  - now vm_compute.
  - reflexivity.
  - reflexivity.
  - reflexivity.
  - intros c. repeat split.
    + apply Hkeys. exists Sample.tier. split; [|reflexivity].
      simpl. repeat constructor.
    + intros Hsome. apply Hkeys in Hsome as (f & Hin & Hkey).
      vm_compute in Hin.
      repeat (apply elem_of_cons in Hin as [->|Hin]; [discriminate|]).
      now apply elem_of_nil in Hin.
    + apply Hids. exists Sample.planLimit. split; [|reflexivity].
      simpl. repeat constructor.
Defined.

(** X7: on a refresh that is due and decodes a body whose arrays hold the
    objects [fs] and [os], none of them [null]: when several of the objects
    have one key, the index keeps the last of them; in particular, with keys
    and ids all different, every flag of the body is found under its key
    and under its id. *)
Theorem refresh_keeps_the_last_of_equal_keys (env : Env) (s : state)
  (resp : response) (fs : list flag) (os : list override) :
  lastRefresh (cl s) + stateRefreshRate ≤ now_at env (tick s) →
  initialize_at env (S (tick s)) = Decoded resp →
  resp_Flags resp = Some <$> fs →
  resp_Overrides resp = Some <$> os →
  let c := cl (snd (refreshState env s)) in
  (∀ before f after, fs = before ++ f :: after →
     (∀ g, g ∈ after → flag_Key g ≠ flag_Key f) →
     flags c !! flag_Key f = Some f) ∧
  (∀ before f after, fs = before ++ f :: after →
     (∀ g, g ∈ after → flag_ID g ≠ flag_ID f) →
     flagsByID c !! flag_ID f = Some f) ∧
  (∀ before o after, os = before ++ o :: after →
     (∀ p, p ∈ after → override_Key p ≠ override_Key o) →
     overrides c !! override_Key o = Some o) ∧
  (NoDup (flag_Key <$> fs) →
   NoDup (flag_ID <$> fs) →
   ∀ f, f ∈ fs →
     flags c !! flag_Key f = Some f ∧ flagsByID c !! flag_ID f = Some f).
Proof.
  intros H E Hfs Hos c.
  destruct (refreshState_swap env s resp fs os H E Hfs Hos) as (ids & _ & Hrun).
  subst c. rewrite Hrun. simpl.
  change indexFlagsByKey with (indexBy flag_Key).
  change indexFlagsByID with (indexBy flag_ID).
  change indexOverrides with (indexBy override_Key).
  split; [|split; [|split]].
  - intros before f after -> Hlast. now apply (index_last_wins flag_Key).
  - intros before f after -> Hlast. now apply (index_last_wins flag_ID).
  - intros before o after -> Hlast. now apply (index_last_wins override_Key).
  - intros Hkeys Hids f Hin.
    apply list_elem_of_split in Hin as (before & after & Heq).
    rewrite Heq in *. rewrite fmap_app, fmap_cons in Hkeys, Hids.
    apply NoDup_app in Hkeys as (_ & _ & Hkeys).
    apply NoDup_app in Hids as (_ & _ & Hids).
    apply NoDup_cons in Hkeys as [Hkeys _]. apply NoDup_cons in Hids as [Hids _].
    split.
    + apply (index_last_wins flag_Key). intros g Hg Heqk. apply Hkeys.
      rewrite <- Heqk. now apply list_elem_of_fmap_2.
    + apply (index_last_wins flag_ID). intros g Hg Heqk. apply Hids.
      rewrite <- Heqk. now apply list_elem_of_fmap_2.
Qed.

Lemma refresh_keeps_the_last_of_equal_keys_witness :
  let twice :=
    {| resp_Flags := [Some Sample.tier; Some Sample.isBeta; Some Sample.loop];
       resp_Overrides := [] |} in
  let env := {| now_at := Sample.clock;
                initialize_at := fun _ => Decoded twice;
                identity_at := fun _ _ => NoResponse |} in
  flags (cl (snd (refreshState env (Sample.due 0)))) !! "tier"
  = Some Sample.loop.
Proof.
  intros twice env.
  apply (proj1 (refresh_keeps_the_last_of_equal_keys env (Sample.due 0) twice
                  [Sample.tier; Sample.isBeta; Sample.loop] []
                  ltac:(now vm_compute) eq_refl eq_refl eq_refl)
           [Sample.tier; Sample.isBeta] Sample.loop []).
  - reflexivity.
  - intros g Hg. now apply elem_of_nil in Hg.
Defined.

(** ** The sweep of the identity cache *)

(** Each entry is tested once, at its own clock reading, and is deleted
    exactly when that reading finds it stale. *)
Lemma sweep_lookup (env : Env) (entries : list (string * identity)) :
  ∀ ids s, NoDup entries.*1 →
  ∃ ids', fst (sweep env entries ids s) = Done ids' ∧
    (∀ k, k ∉ entries.*1 → ids' !! k = ids !! k) ∧
    (∀ j k i, entries !! j = Some (k, i) →
       ids' !! k
       = if Z.ltb (fetchedAt i + identityRefreshRate) (now_at env (j + tick s))
         then None else ids !! k).
Proof.
  induction entries as [|[k0 i0] rest IH]; intros ids s Hnodup.
  - exists ids. split; [reflexivity|]. split; [reflexivity|].
    intros j k i Hj. discriminate.
  - simpl in Hnodup. apply NoDup_cons in Hnodup as [Hk0 Hnodup].
    simpl sweep. rewrite (bind_Done _ _ _ _ _ (isStale_run env i0 s)).
    remember (Z.ltb (fetchedAt i0 + identityRefreshRate) (now_at env (tick s)))
      as stale eqn:Hstale.
    destruct (IH (if stale then delete k0 ids else ids) (later 1 s) Hnodup)
      as (ids' & Hrun & Hother & Hentry).
    assert (∀ k, k ≠ k0 →
              (if stale then delete k0 ids else ids) !! k = ids !! k) as Hne.
    { intros k Hk. destruct stale; [now apply lookup_delete_ne | reflexivity]. }
    exists ids'. split; [exact Hrun|]. split.
    + intros k Hk. simpl in Hk. apply not_elem_of_cons in Hk as [Hk Hrest].
      rewrite (Hother k Hrest). now apply Hne.
    + intros [|j] k i Hj; simpl in Hj.
      * injection Hj as <- <-. rewrite (Hother k0 Hk0). simpl.
        rewrite <- Hstale.
        destruct stale; [apply lookup_delete_eq | reflexivity].
      * rewrite (Hentry j k i Hj). simpl tick.
        replace (j + S (tick s))%nat with (S j + tick s)%nat by lia.
        destruct (Z.ltb (fetchedAt i + identityRefreshRate) _); [reflexivity|].
        apply Hne.
        intros ->. apply Hk0. apply list_elem_of_lookup_2 in Hj.
        now apply (list_elem_of_fmap_2 fst) in Hj.
Qed.

(** X8: on a refresh that is due and decodes a body without a [null]
    element, every entry of the identity cache is tested once, at one of
    the clock readings of the sweep, and is evicted exactly when that
    reading is past its [fetchedAt] plus five seconds; nothing is added. So
    an entry that every reading finds stale is gone, and an entry that no
    reading finds stale stays. *)
Theorem refresh_sweeps_the_identity_cache (env : Env) (s : state)
  (resp : response) (fs : list flag) (os : list override) :
  lastRefresh (cl s) + stateRefreshRate ≤ now_at env (tick s) →
  initialize_at env (S (tick s)) = Decoded resp →
  resp_Flags resp = Some <$> fs →
  resp_Overrides resp = Some <$> os →
  let after := identities (cl (snd (refreshState env s))) in
  let n := length (map_to_list (identities (cl s))) in
  (∀ k, identities (cl s) !! k = None → after !! k = None) ∧
  (∀ k i, identities (cl s) !! k = Some i →
     ∃ j, (j < n)%nat ∧
       after !! k
       = if Z.ltb (fetchedAt i + identityRefreshRate)
                  (now_at env (j + (2 + tick s)))
         then None else Some i) ∧
  (∀ k i, identities (cl s) !! k = Some i →
     (∀ m, fetchedAt i + identityRefreshRate < now_at env m) →
     after !! k = None) ∧
  (∀ k i, identities (cl s) !! k = Some i →
     (∀ m, now_at env m ≤ fetchedAt i + identityRefreshRate) →
     after !! k = Some i).
Proof.
  intros H E Hfs Hos after n.
  destruct (refreshState_swap_sweep env s resp fs os H E Hfs Hos _ eq_refl)
    as (ids & Hsweep & Hcl).
  match type of Hsweep with fst (sweep env ?l ?m ?st) = _ =>
    destruct (sweep_lookup env l m st (NoDup_fst_map_to_list _))
      as (ids' & Hrun & Hother & Hentry) end.
  rewrite Hsweep in Hrun. injection Hrun as <-.
  assert (after = ids) as -> by (subst after; now rewrite Hcl).
  assert (∀ k i, identities (cl s) !! k = Some i →
     ∃ j, (j < n)%nat ∧
       ids !! k
       = if Z.ltb (fetchedAt i + identityRefreshRate)
                  (now_at env (j + (2 + tick s)))
         then None else Some i) as Hone.
  { intros k i Hi. apply elem_of_map_to_list in Hi as Hin.
    apply list_elem_of_lookup_1 in Hin as [j Hj].
    exists j. split; [now apply lookup_lt_Some in Hj|].
    rewrite (Hentry j k i Hj), Hi. reflexivity. }
  split; [|split; [exact Hone|split]].
  - intros k Hk. rewrite Hother; [exact Hk|].
    intros Hin. apply list_elem_of_fmap in Hin as ([k' i] & -> & Hin).
    apply elem_of_map_to_list in Hin. simpl in Hk. congruence.
  - intros k i Hi Hstale. destruct (Hone k i Hi) as (j & _ & ->).
    specialize (Hstale (j + (2 + tick s))%nat). apply Z.ltb_lt in Hstale.
    now rewrite Hstale.
  - intros k i Hi Hfresh. destruct (Hone k i Hi) as (j & _ & ->).
    specialize (Hfresh (j + (2 + tick s))%nat). apply Z.ltb_ge in Hfresh.
    now rewrite Hfresh.
Qed.

Lemma refresh_sweeps_the_identity_cache_witness :
  let old := Sample.user "old" ∅ (-100 * second) in
  let new := Sample.user "new" ∅ (3600 * second) in
  let s := {| cl := Sample.clientOf Sample.snapshot
                      {[ "old" := old; "new" := new ]} (-61 * second);
              tick := 0; calls := [] |} in
  let after := identities (cl (snd (refreshState Sample.world s))) in
  after !! "old" = None ∧
  ∃ j, (j < 2)%nat ∧
    after !! "new"
    = if Z.ltb (fetchedAt new + identityRefreshRate) (Sample.clock (j + 2))
      then None else Some new.
Proof.
  intros old new s.
  destruct (refresh_sweeps_the_identity_cache Sample.world s Sample.snapshot
              [Sample.isBeta; Sample.tier; Sample.planLimit] [])
    as (_ & Hone & Hstale & _).
  - now vm_compute.
  - reflexivity.
  - reflexivity.
  - reflexivity.
  - intros after. split.
    + apply (Hstale "old"%string old); [vm_compute; reflexivity|].
      intros m. unfold Sample.world, now_at, Sample.clock, old, fetchedAt,
        Sample.user, identityRefreshRate, second. lia.
    + destruct (Hone "new"%string new) as (j & Hj & Hafter);
        [vm_compute; reflexivity|].
      exists j. split; [|exact Hafter].
      assert (length (map_to_list (identities (cl s))) = 2%nat) as <-
        by (vm_compute; reflexivity).
      exact Hj.
Defined.

(** ** One refresh after another *)

(** X9: after a refresh at time [t] that decoded a body without a [null]
    element, a refresh at any reading before [t + 60s] does nothing. After
    a refresh that returned an error, and after one that panicked on a
    [null] element of the body, [lastRefresh] is what it was, so the next
    refresh sends the request again as long as the clock has not gone back:
    every evaluation retries. *)
Theorem refresh_then_refresh (env : Env) (s : state) :
  lastRefresh (cl s) + stateRefreshRate ≤ now_at env (tick s) →
  let s' := snd (refreshState env s) in
  (∀ resp fs os, initialize_at env (S (tick s)) = Decoded resp →
     resp_Flags resp = Some <$> fs →
     resp_Overrides resp = Some <$> os →
     now_at env (tick s') < now_at env (tick s) + stateRefreshRate →
     refreshState env s' = (Done None, later 1 s')) ∧
  (∀ err, initialize_at env (S (tick s)) = Failed err →
     now_at env (tick s) ≤ now_at env (tick s') →
     calls (snd (refreshState env s'))
     = calls s ++ [ReqInitialize; ReqInitialize]) ∧
  (∀ resp, initialize_at env (S (tick s)) = Decoded resp →
     None ∈ resp_Flags resp ∨ None ∈ resp_Overrides resp →
     now_at env (tick s) ≤ now_at env (tick s') →
     calls (snd (refreshState env s'))
     = calls s ++ [ReqInitialize; ReqInitialize]).
Proof.
  intros H s'. split; [|split].
  - intros resp fs os E Hfs Hos Hsoon.
    destruct (refreshState_swap env s resp fs os H E Hfs Hos)
      as (ids & _ & Hrun).
    apply refreshState_skip. subst s'. rewrite Hrun in *. exact Hsoon.
  - intros err E Hclock. subst s'.
    rewrite (refreshState_fail env s err H E) in *.
    rewrite refreshState_due_calls; [simpl; now rewrite <- app_assoc|].
    simpl in *. lia.
  - intros resp E Hnull Hclock. subst s'.
    rewrite (refreshState_null env s resp H E Hnull) in *.
    rewrite refreshState_due_calls; [simpl; now rewrite <- app_assoc|].
    simpl in *. lia.
Qed.

Lemma refresh_then_refresh_witness :
  let s' := snd (refreshState Sample.world (Sample.due 0)) in
  let t' := snd (refreshState Sample.failing (Sample.due 0)) in
  let u' := snd (refreshState Sample.holed (Sample.due 0)) in
  refreshState Sample.world s' = (Done None, later 1 s') ∧
  calls (snd (refreshState Sample.failing t')) = [ReqInitialize; ReqInitialize] ∧
  calls (snd (refreshState Sample.holed u')) = [ReqInitialize; ReqInitialize].
Proof.
  destruct (refresh_then_refresh Sample.world (Sample.due 0)) as [Hok _];
    [now vm_compute|].
  destruct (refresh_then_refresh Sample.failing (Sample.due 0))
    as (_ & Hfail & _); [now vm_compute|].
  destruct (refresh_then_refresh Sample.holed (Sample.due 0))
    as (_ & _ & Hnull); [now vm_compute|].
  intros s' t' u'. split; [|split].
  - apply (Hok Sample.snapshot
             [Sample.isBeta; Sample.tier; Sample.planLimit] []);
      [reflexivity | reflexivity | reflexivity | now vm_compute].
  - apply (Hfail Sample.unavailable); [reflexivity | now vm_compute].
  - apply (Hnull _ eq_refl); [|now vm_compute].
    left. apply list_elem_of_further, list_elem_of_here.
Defined.

(** ** What an identity fetch leaves alone *)

(** X10: however it ends, [fetchIdentity] leaves the snapshot and
    [lastRefresh] as they were and evicts nothing: the cache afterwards is
    the cache before, or the cache before with one entry written. *)
Theorem fetchIdentity_frame (env : Env) (identifier : string) (s : state) :
  let c := cl (snd (fetchIdentity env identifier s)) in
  flags c = flags (cl s) ∧
  flagsByID c = flagsByID (cl s) ∧
  overrides c = overrides (cl s) ∧
  lastRefresh c = lastRefresh (cl s) ∧
  (identities c = identities (cl s) ∨
   ∃ i, identities c = <[identity_Identifier i := i]> (identities (cl s))) ∧
  (∀ k, is_Some (identities (cl s) !! k) → is_Some (identities c !! k)).
Proof.
  assert (∀ s0, cl s0 = cl s →
    let c := cl (snd (fetchIdentityRemote env identifier s0)) in
    flags c = flags (cl s) ∧ flagsByID c = flagsByID (cl s) ∧
    overrides c = overrides (cl s) ∧ lastRefresh c = lastRefresh (cl s) ∧
    (identities c = identities (cl s) ∨
     ∃ i, identities c = <[identity_Identifier i := i]> (identities (cl s))))
    as Hremote.
  { intros s0 Hcl.
    destruct (identity_at env (tick s0) identifier) as [d|err|] eqn:E.
    - rewrite (fetchIdentityRemote_ok env identifier s0 d E). simpl.
      rewrite Hcl. repeat split; try reflexivity. right.
      exists (stamp d (now_at env (S (tick s0)))). reflexivity.
    - rewrite (fetchIdentityRemote_fail env identifier s0 err E). simpl.
      rewrite Hcl. auto 10.
    - rewrite (fetchIdentityRemote_no_response env identifier s0 E). simpl.
      rewrite Hcl. auto 10. }
  assert (let c := cl (snd (fetchIdentity env identifier s)) in
    flags c = flags (cl s) ∧ flagsByID c = flagsByID (cl s) ∧
    overrides c = overrides (cl s) ∧ lastRefresh c = lastRefresh (cl s) ∧
    (identities c = identities (cl s) ∨
     ∃ i, identities c = <[identity_Identifier i := i]> (identities (cl s))))
    as Hall.
  { destruct (identities (cl s) !! identifier) as [i|] eqn:E.
    - destruct (Z.lt_ge_cases (fetchedAt i + identityRefreshRate)
                  (now_at env (tick s))) as [Hstale|Hfresh].
      + rewrite (fetchIdentity_stale env identifier s i E Hstale).
        now apply Hremote.
      + rewrite (fetchIdentity_cached env identifier s i E Hfresh). simpl.
        auto 10.
    - rewrite (fetchIdentity_absent env identifier s E). now apply Hremote. }
  intros c. destruct Hall as (H1 & H2 & H3 & H4 & H5).
  repeat split; try assumption.
  intros k Hk. fold c in H5. destruct H5 as [-> | [i ->]]; [exact Hk|].
  destruct (decide (identity_Identifier i = k)) as [->|Hne].
  - rewrite lookup_insert_eq. eauto.
  - now rewrite lookup_insert_ne.
Qed.


(** ** A new client *)

(** X11: a client just made has no flag. Its first evaluation, at any
    time from sixty seconds after the zero time on, starts with the
    request for the snapshot; when that request returns an error the
    caller gets [ErrFlagNotFound] for every key and identifier, not the
    error of the request, and nothing else is sent. *)
Theorem first_evaluation_of_a_new_client (env : Env) (k : kind) (fuel : nat)
  (opts : FlagOptions) (s : state) :
  cl s = NewClient →
  zeroTime + stateRefreshRate ≤ now_at env (tick s) →
  (∃ l, calls (snd (entry env k (S fuel) opts s))
        = calls s ++ ReqInitialize :: l) ∧
  (∀ err, initialize_at env (S (tick s)) = Failed err →
     ∃ s', entryFrom env k (S fuel) opts s
             (Done (zero k, Some ErrFlagNotFound), s') ∧
           calls s' = calls s ++ [ReqInitialize]).
Proof.
  intros Hnew Hclock.
  assert (lastRefresh (cl s) + stateRefreshRate ≤ now_at env (tick s)) as Hdue
    by now rewrite Hnew.
  split.
  - rewrite entry_afterRefresh. unfold bind.
    pose proof (refreshState_due_calls env s Hdue) as Hcalls.
    destruct (refreshState env s) as [[r0|p|] s1] eqn:E; simpl in Hcalls.
    + destruct (afterRefresh env k fuel opts s1) as [o s'] eqn:E'.
      destruct (sendsOnly_afterRefresh env fuel k opts
                  (fun k' opts' H => eq_rect _ (fun i => sendsOnly i _)
                     (sendsOnly_entry env fuel k' opts') _ H)
                  s1 o s' E') as (l & Hl & _).
      exists l. simpl. now rewrite Hl, Hcalls, <- app_assoc.
    + exists []. simpl. now rewrite Hcalls.
    + exists []. simpl. now rewrite Hcalls.
  - intros err E. eexists. split.
    + apply entryFrom_intro; [|discriminate].
      rewrite entry_afterRefresh.
      rewrite (bind_Done _ _ _ _ _ (refreshState_fail env s err Hdue E)).
      unfold afterRefresh. rewrite bind_get. simpl. rewrite Hnew. simpl.
      rewrite lookup_empty. reflexivity.
    + reflexivity.
Qed.

Lemma first_evaluation_of_a_new_client_witness :
  ∃ s', StringFlag Sample.failing 1 {| Key := "tier"; Identifier := "u" |}
          (Sample.brandNew 0)
        = (Done (EmptyString, Some ErrFlagNotFound), s') ∧
    calls s' = [ReqInitialize].
Proof.
  destruct (first_evaluation_of_a_new_client Sample.failing KString 0
              {| Key := "tier"; Identifier := "u" |} (Sample.brandNew 0))
    as [_ Hfail].
  - reflexivity.
  - now vm_compute.
  - destruct (Hfail Sample.unavailable eq_refl) as (s' & Hrun & Hcalls).
    exists s'. split; [|exact Hcalls].
    exact (entryFrom_at Sample.failing KString 1 _ _ _ Hrun).
Defined.

(** ** Rules on flags of another type *)

(** X12: a rule whose referenced flag has a type that is none of boolean,
    number and string falls through the [switch]: it never matches,
    evaluates nothing and cannot fail, whatever its operator and values;
    the loop goes on as if the rule were not there. *)
Theorem rule_on_unknown_type_is_skipped (env : Env) (k : kind) (fuel : nat)
  (identifier : string) (rule : dynamicRule) (rest : list dynamicRule)
  (s : state) (ef : flag) :
  flagsByID (cl s) !! expr_FlagID (rule_Expression rule) = Some ef →
  unknownType (flag_Type ef) →
  evalAt env fuel identifier rule s = (Done Miss, s) ∧
  rulesAt env k fuel identifier (rule :: rest) s
  = rulesAt env k fuel identifier rest s.
Proof.
  intros Hef (Hb & Hn & Hs).
  assert (evalAt env fuel identifier rule s = (Done Miss, s)) as Heval.
  { unfold evalAt, evalExpression. rewrite bind_get, Hef.
    apply String.eqb_neq in Hb, Hn, Hs. now rewrite Hb, Hn, Hs. }
  split; [exact Heval|].
  unfold rulesAt at 1. simpl forRules. fold (evalAt env fuel).
  now rewrite (bind_Done _ _ _ _ _ Heval).
Qed.

Lemma rule_on_unknown_type_is_skipped_witness :
  let odd := Sample.when "f4" "~" VNull (VString "never") in
  let resp := {| resp_Flags := [Some Sample.blob; Some (Sample.tierWith [odd])];
                 resp_Overrides := [] |} in
  let rest := [Sample.whenBeta "==" (VBool true) (VString "beta")] in
  evalAt Sample.world 1 EmptyString odd (Sample.refreshed resp 1)
  = (Done Miss, Sample.refreshed resp 1) ∧
  rulesAt Sample.world KString 1 EmptyString (odd :: rest)
    (Sample.refreshed resp 1)
  = rulesAt Sample.world KString 1 EmptyString rest (Sample.refreshed resp 1).
Proof.
  intros odd resp rest.
  apply (rule_on_unknown_type_is_skipped Sample.world KString 1 EmptyString odd
           rest (Sample.refreshed resp 1) Sample.blob).
  - vm_compute; reflexivity.
  - repeat split; discriminate.
Defined.

(** ** The comparison tables *)

(** X13: the boolean table has the two operators [==] and [!=] and no
    other; the number and string tables have these and the four order
    operators and no other. Every other operator string is a missing key,
    hence a nil func. *)
Theorem operators_of_the_tables (k : kind) (op : string) :
  noOperation k op ↔ op ∉ operatorsOf k.
Proof.
  assert (∀ B (ops : list (string * B)),
            (list_to_map ops : gmap string B) !! op = None ↔ op ∉ ops.*1)
    as Hnone.
  { intros B ops. symmetry. apply not_elem_of_list_to_map. }
  destruct k; unfold noOperation, boolOperations, numberOperations,
    stringOperations; rewrite Hnone; reflexivity.
Qed.


(** ** The HTTP layer *)

Section HTTPFacts.

Context {A : Type}
        (unmarshalRawError : string → error + option (string * string * Z))
        (unmarshal : string → error + A).

(** X15: [do] returns a decoded value, with a nil error, exactly when the
    client handed back a response without an error, the status is below
    400, the body was read to its end and it decodes. *)
Theorem do_returns_value_iff (res : option httpResponse) (err : option error)
  (a : A) :
  do unmarshalRawError unmarshal res err = Done (None, Some a)
  ↔ ∃ r, res = Some r ∧ err = None ∧ StatusCode r < 400 ∧
         bodyError r = None ∧ unmarshal (bodyData r) = inr a.
Proof.
  unfold do. split.
  - destruct err as [e|], res as [r|]; simpl; try discriminate.
    + destruct (Z.leb 400 (StatusCode r)); discriminate.
    + destruct (Z.leb_spec 400 (StatusCode r)) as [Hge|Hlt]; [discriminate|].
      destruct (bodyError r) as [e|] eqn:Eb; simpl; [discriminate|].
      destruct (unmarshal (bodyData r)) as [e|a'] eqn:Eu; [discriminate|].
      intros [= ->]. exists r. auto.
  - intros (r & -> & -> & Hlt & Hbody & Hu). simpl.
    apply Z.leb_gt in Hlt. now rewrite Hlt, Hbody, Hu.
Qed.

(** X16: when the client hands back no response, [do] dereferences the nil
    response and panics, whatever the error. With a response of status 400
    or more it returns a non-nil error and no value: the error is what the
    body decodes to, also when the client or the read of the body had
    reported an error of their own, and also when the body has no [error]
    member. *)
Theorem do_failure_modes (res : option httpResponse) (err : option error) :
  (res = None → do unmarshalRawError unmarshal res err = Panic NilDereference) ∧
  (∀ r, res = Some r → 400 ≤ StatusCode r →
     do unmarshalRawError unmarshal res err
     = Done (Some (responseToError unmarshalRawError
                     (match err with
                      | None => bodyData r
                      | Some _ => EmptyString
                      end)), None)).
Proof.
  unfold do. split.
  - intros ->. now destruct err.
  - intros r -> Hge. apply Z.leb_le in Hge.
    destruct err; simpl; now rewrite Hge.
Qed.

End HTTPFacts.

Lemma do_returns_value_iff_witness :
  do (fun _ => inr None) (fun body => inr body)
     (Some {| StatusCode := 200; bodyData := "{}"; bodyError := None |}) None
  = Done (None, Some "{}"%string).
Proof.
  apply (do_returns_value_iff (fun _ => inr None) (fun body => inr body)).
  eexists. repeat split; reflexivity.
Defined.

Lemma do_failure_modes_witness :
  do (fun _ : string => inr None) (fun body : string => inr body) None
     (Some (OtherError "dial tcp: connection refused"))
  = Panic NilDereference ∧
  do (fun _ : string => inr None) (fun body : string => inr body)
     (Some {| StatusCode := 503; bodyData := "{}"; bodyError := None |}) None
  = Done (Some NilAPIError, None).
Proof.
  split.
  - now apply (proj1 (do_failure_modes (fun _ => inr None) (fun body => inr body)
                        None (Some (OtherError "dial tcp: connection refused")))).
  - apply (proj2 (do_failure_modes (fun _ => inr None) (fun body => inr body)
                    (Some {| StatusCode := 503; bodyData := "{}";
                             bodyError := None |}) None) _ eq_refl).
    now vm_compute.
Defined.


(** ** Values of another dynamic type *)

(** X17: the test of [f.Type] says nothing of the dynamic type of the
    values that are then asserted. When the value the precedence chain
    selects is not of the entry point's type, the unchecked type assertion
    panics: for the override of the fetched identity; and, in every call
    that gets past the identity step (without an identifier, or with an
    identifier whose identity has no override for the key), for the global
    override and for the default of a flag none of whose rules matches. *)
Theorem ill_typed_value_panics (env : Env) (k : kind) (fuel : nat)
  (opts : FlagOptions) (s s1 : state) (r0 : option error) (f : flag) :
  refreshState env s = (Done r0, s1) →
  flags (cl s1) !! Key opts = Some f →
  flag_Type f = typeName k →
  (∀ i s2 v,
     Identifier opts ≠ EmptyString →
     fetchIdentity env (Identifier opts) s1 = (Done (Some i, None), s2) →
     identity_Overrides i !! Key opts = Some v →
     (∀ x, v ≠ inject k x) →
     entryFrom env k (S fuel) opts s (Panic TypeAssertion, s2)) ∧
  (∀ s2 o,
     pastIdentity env opts s1 s2 →
     overrides (cl s2) !! Key opts = Some o →
     (∀ x, override_Value o ≠ inject k x) →
     entryFrom env k (S fuel) opts s (Panic TypeAssertion, s2)) ∧
  (∀ s2 s3,
     pastIdentity env opts s1 s2 →
     overrides (cl s2) !! Key opts = None →
     allMiss (evalAt env fuel (Identifier opts)) (flag_DynamicRules f) s2 s3 →
     (∀ x, flag_Value f ≠ inject k x) →
     entryFrom env k (S fuel) opts s (Panic TypeAssertion, s3)).
Proof.
  intros Hrefresh Hflag Htype.
  assert (∀ v s0, (∀ x, v ≠ inject k x) →
            (let* x := assertT k v in ret (x, @None error)) s0
            = (Panic TypeAssertion, s0)) as Hassert.
  { intros v s0 Hbad.
    destruct (assertT_cases k v s0) as [(x & Hx & _) | [_ Hpanic]];
      [now destruct (Hbad x)|].
    now rewrite (bind_Panic _ _ _ _ _ Hpanic). }
  split; [|split].
  - intros i s2 v Hid Hfetch Hov Hbad. apply entryFrom_intro; [|discriminate].
    rewrite entry_S, (evaluate_identity_override env k fuel opts s r0 s1 f i
                        s2 v Hid Hrefresh Hflag Htype Hfetch Hov).
    now apply Hassert.
  - intros s2 o Hpast Hglobal Hbad. apply entryFrom_intro; [|discriminate].
    rewrite entry_S, (evaluate_after_identity env k fuel opts s r0 s1 f s2
                        Hrefresh Hflag Htype Hpast).
    rewrite (afterIdentity_override env k fuel opts f s2 o Hglobal).
    now apply Hassert.
  - intros s2 s3 Hpast Hglobal Hmiss Hbad.
    apply entryFrom_intro; [|discriminate].
    rewrite (entry_no_rule_hit env k fuel opts s f s2 s3); [now apply Hassert| |].
    + exists r0, s1. repeat split; assumption.
    + exact Hmiss.
Qed.

Lemma ill_typed_value_panics_witness :
  let wrong :=
    {| flag_ID := "f5"; flag_Key := "enabled"; flag_Type := "boolean";
       flag_Value := VString "yes"; flag_DynamicRules := [] |} in
  let s :=
    Sample.refreshed {| resp_Flags := [Some wrong]; resp_Overrides := [] |} 1 in
  BoolFlag Sample.world 1 {| Key := "enabled"; Identifier := EmptyString |} s
  = (Panic TypeAssertion, later 1 s) ∧
  BoolFlag Sample.world 1 {| Key := "enabled"; Identifier := "u1" |} s
  = (Panic TypeAssertion, snd (fetchIdentity Sample.world "u1" (later 1 s))).
Proof.
  intros wrong s. split.
  - at_depth KBool.
    apply (proj2 (proj2 (ill_typed_value_panics Sample.world KBool 0
                           {| Key := "enabled"; Identifier := EmptyString |}
                           s (later 1 s) None wrong
                           ltac:(vm_compute; reflexivity)
                           ltac:(vm_compute; reflexivity) eq_refl))
             (later 1 s)).
    + left. split; reflexivity.
    + vm_compute; reflexivity.
    + apply allMiss_nil.
    + intros x. discriminate.
  - at_depth KBool.
    apply (proj2 (proj2 (ill_typed_value_panics Sample.world KBool 0
                           {| Key := "enabled"; Identifier := "u1" |}
                           s (later 1 s) None wrong
                           ltac:(vm_compute; reflexivity)
                           ltac:(vm_compute; reflexivity) eq_refl))
             (snd (fetchIdentity Sample.world "u1" (later 1 s)))).
    + right. split; [discriminate|].
      exists (stamp (Sample.user "u1" ∅ 0) (Sample.clock 3)).
      split; vm_compute; reflexivity.
    + vm_compute; reflexivity.
    + apply allMiss_nil.
    + intros x. discriminate.
Defined.

(** ** Evaluation without a subject *)

(** X18: with an empty identifier the identity cache is not consulted at
    all. The global override for the key is returned when there is one, in
    the state the refresh left; otherwise the value of the first rule that
    matches, and otherwise the default of the flag. *)
Theorem precedence_without_identifier (env : Env) (k : kind) (fuel : nat)
  (opts : FlagOptions) (s s1 : state) (r0 : option error) (f : flag) :
  Identifier opts = EmptyString →
  refreshState env s = (Done r0, s1) →
  flags (cl s1) !! Key opts = Some f →
  flag_Type f = typeName k →
  (∀ o x, overrides (cl s1) !! Key opts = Some o →
     override_Value o = inject k x →
     entryFrom env k (S fuel) opts s (Done (x, None), s1)) ∧
  (∀ pre rule post s3 s4 x,
     overrides (cl s1) !! Key opts = None →
     flag_DynamicRules f = pre ++ rule :: post →
     allMiss (evalAt env fuel EmptyString) pre s1 s3 →
     evalAt env fuel EmptyString rule s3 = (Done Hit, s4) →
     rule_Value rule = inject k x →
     entryFrom env k (S fuel) opts s (Done (x, None), s4)) ∧
  (∀ s3 x, overrides (cl s1) !! Key opts = None →
     allMiss (evalAt env fuel EmptyString) (flag_DynamicRules f) s1 s3 →
     flag_Value f = inject k x →
     entryFrom env k (S fuel) opts s (Done (x, None), s3)).
Proof.
  intros Hid Hrefresh Hflag Htype.
  assert (∀ x s0, (let* y := assertT k (inject k x) in ret (y, @None error)) s0
                  = (Done (x, None), s0)) as Hassert.
  { intros x s0. unfold bind. now rewrite assertT_inject. }
  assert (overrides (cl s1) !! Key opts = None →
          reachesRules env k opts s f s1) as Hreach.
  { intros Hglobal. exists r0, s1. repeat split; try assumption. now left. }
  split; [|split].
  - intros o x Hglobal Hval. apply entryFrom_intro; [|discriminate].
    rewrite entry_S, (evaluate_after_identity env k fuel opts s r0 s1 f s1
                        Hrefresh Hflag Htype); [|now left].
    rewrite (afterIdentity_override env k fuel opts f s1 o Hglobal), Hval.
    apply Hassert.
  - intros pre rule post s3 s4 x Hglobal Hrules Hmiss Hhit Hval.
    apply entryFrom_intro; [|discriminate]. rewrite <- Hid in Hmiss, Hhit.
    rewrite (entry_rule_hit env k fuel opts s f s1 pre rule post s3 s4
               (Hreach Hglobal) Hrules Hmiss Hhit), Hval.
    apply Hassert.
  - intros s3 x Hglobal Hmiss Hval.
    apply entryFrom_intro; [|discriminate]. rewrite <- Hid in Hmiss.
    rewrite (entry_no_rule_hit env k fuel opts s f s1 s3 (Hreach Hglobal) Hmiss),
      Hval.
    apply Hassert.
Qed.

Lemma precedence_without_identifier_witness :
  let s := Sample.refreshed Sample.overridden 1 in
  NumberFlag Sample.overriding 1
    {| Key := "plan_limit"; Identifier := EmptyString |} s
  = (Done (25%float, None), later 1 s).
Proof.
  intros s. at_depth KNumber.
  apply (proj1 (precedence_without_identifier Sample.overriding KNumber 0
                  {| Key := "plan_limit"; Identifier := EmptyString |}
                  s (later 1 s) None Sample.planLimit eq_refl
                  ltac:(vm_compute; reflexivity)
                  ltac:(vm_compute; reflexivity) eq_refl)
           {| override_ID := "o2"; override_Key := "plan_limit";
              override_Value := VNumber 25 |} 25%float);
    vm_compute; reflexivity.
Defined.

(** ** A body with a [null] element *)

(** X19: when the refresh is due and the decoded body has [null] for one
    of its flags or overrides, [refreshState] panics on the nil element
    after the request is sent and before anything is assigned: the client
    is as it was. The three entry points start with the refresh, so each
    of them panics in the same way, whatever the key and the identifier,
    without a look at the snapshot the client still has. *)
Theorem refresh_with_null_element_panics (env : Env) (s : state)
  (resp : response) :
  lastRefresh (cl s) + stateRefreshRate ≤ now_at env (tick s) →
  initialize_at env (S (tick s)) = Decoded resp →
  None ∈ resp_Flags resp ∨ None ∈ resp_Overrides resp →
  let s' := {| cl := cl s; tick := 2 + tick s;
               calls := calls s ++ [ReqInitialize] |} in
  refreshState env s = (Panic NilDereference, s') ∧
  ∀ k opts, entryFrom env k 1 opts s (Panic NilDereference, s').
Proof.
  intros H E Hnull s'.
  pose proof (refreshState_null env s resp H E Hnull) as Hrun.
  split; [exact Hrun|].
  intros k opts. apply entryFrom_intro; [|discriminate].
  rewrite entry_S. unfold evaluate.
  now rewrite (bind_Panic _ _ _ _ _ Hrun).
Qed.

Lemma refresh_with_null_element_panics_witness :
  let s := Sample.due 0 in
  let s' := {| cl := cl s; tick := 2; calls := [ReqInitialize] |} in
  refreshState Sample.holed s = (Panic NilDereference, s') ∧
  StringFlag Sample.holed 1 {| Key := "tier"; Identifier := "u1" |} s
  = (Panic NilDereference, s').
Proof.
  intros s s'.
  destruct (refresh_with_null_element_panics Sample.holed s
              {| resp_Flags := [Some Sample.isBeta; None; Some Sample.planLimit];
                 resp_Overrides := [] |}) as [Hrun Hentry].
  - now vm_compute.
  - reflexivity.
  - left. apply list_elem_of_further, list_elem_of_here.
  - split; [exact Hrun|].
    exact (entryFrom_at Sample.holed KString 1 _ _ _
             (Hentry KString {| Key := "tier"; Identifier := "u1" |})).
Defined.
